(** * Fountain-to-Shotlist: the parser and the shotlist builder of [app.py]

    A shallow embedding of the core of [src/app.py]: the line classifier
    ([is_scene_heading], [is_transition], [is_character_cue]), the screenplay
    parser ([parse_fountain_text]) and the shotlist builder
    ([build_shotlist_from_scenes]), with the properties of the specification
    stated and settled on them.

    Python values are modelled as follows.
    - [str] is [string]; a character is a code point below 256 (Latin-1),
      and the classification functions of Python ([str.isspace],
      [str.isalpha], [str.isupper], [str.lower]) are tabulated on that range.
    - [int] is [Z].
    - a [dict] keyed by strings is a [gmap string _]; the dictionary
      [possible_map], whose iteration order matters, is an association list.
    - a [set] of strings is a [gset string].
    - a compiled regular expression is a value of [Re.regex], run by a
      backtracking matcher with the priorities of Python's [re]. *)

From Stdlib Require Import ZArith NArith Ascii.
From Stdlib Require String.
From stdpp Require Import base option list gmap strings sorting.

Local Open Scope Z_scope.
Local Set Warnings "-clear-no-such-hyp".

(** ** Python's string primitives, on code points below 256 *)

Module Py.

Definition code (c : ascii) : N := N_of_ascii c.

Definition in_range (lo hi : N) (c : ascii) : bool :=
  ((lo <=? code c) && (code c <=? hi))%N.

(** [str.isspace] on one character: TAB..CR, FS..US, SPACE, NEL, NBSP. *)
Definition isspace (c : ascii) : bool :=
  in_range 9 13 c || in_range 28 32 c
  || (code c =? 133)%N || (code c =? 160)%N.

(** [str.isupper] on one character: A-Z and the Latin-1 capitals. *)
Definition isupper (c : ascii) : bool :=
  in_range 65 90 c || in_range 192 214 c || in_range 216 222 c.

(** [str.isalpha] on one character: the Latin-1 letters. *)
Definition isalpha (c : ascii) : bool :=
  in_range 65 90 c || in_range 97 122 c
  || (code c =? 170)%N || (code c =? 181)%N || (code c =? 186)%N
  || in_range 192 214 c || in_range 216 246 c || in_range 248 255 c.

(** [str.lower] on one character. *)
Definition lower_char (c : ascii) : ascii :=
  if isupper c then ascii_of_N (code c + 32) else c.

Fixpoint lower (s : string) : string :=
  match s with
  | EmptyString => EmptyString
  | String c s' => String (lower_char c) (lower s')
  end.

(** Truthiness of a [str]: non-empty. *)
Definition truthy (s : string) : bool :=
  match s with EmptyString => false | String _ _ => true end.

(** Truthiness of a value that is [None] or a [str]. *)
Definition truthy_opt (o : option string) : bool :=
  match o with Some s => truthy s | None => false end.

Fixpoint lstrip (s : string) : string :=
  match s with
  | EmptyString => EmptyString
  | String c s' => if isspace c then lstrip s' else s
  end.

Fixpoint rstrip (s : string) : string :=
  match s with
  | EmptyString => EmptyString
  | String c s' =>
      match rstrip s' with
      | EmptyString => if isspace c then EmptyString else String c EmptyString
      | r => String c r
      end
  end.

(** [s.strip()] *)
Definition strip (s : string) : string := rstrip (lstrip s).

(** [s.rstrip(chars)] for a one-character [chars]. *)
Fixpoint rstrip_char (x : ascii) (s : string) : string :=
  match s with
  | EmptyString => EmptyString
  | String c s' =>
      match rstrip_char x s' with
      | EmptyString => if Ascii.eqb c x then EmptyString else String c EmptyString
      | r => String c r
      end
  end.

(** [sep.join(l)] *)
Fixpoint join (sep : string) (l : list string) : string :=
  match l with
  | [] => EmptyString
  | [x] => x
  | x :: l' => x +:+ sep +:+ join sep l'
  end.

(** The line boundaries of [str.splitlines] below code point 256:
    LF, VT, FF, CR, FS, GS, RS and NEL; CR LF counts as one boundary. *)
Definition is_linebreak (c : ascii) : bool :=
  in_range 10 13 c || in_range 28 30 c || (code c =? 133)%N.

Fixpoint splitlines_from (after_cr : bool) (s : string) : list string :=
  match s with
  | EmptyString => []
  | String c s' =>
      if after_cr && (code c =? 10)%N then splitlines_from false s'
      else if is_linebreak c then
        EmptyString :: splitlines_from (code c =? 13)%N s'
      else
        match splitlines_from false s' with
        | [] => [String c EmptyString]
        | l :: ls => String c l :: ls
        end
  end.

(** [s.splitlines()] *)
Definition splitlines (s : string) : list string := splitlines_from false s.

(** [sum(1 for ch in s if p(ch))] *)
Fixpoint count (p : ascii → bool) (s : string) : Z :=
  match s with
  | EmptyString => 0
  | String c s' => (if p c then 1 else 0) + count p s'
  end.

(** [len(s)] *)
Definition len (s : string) : Z := Z.of_nat (String.length s).

(** [s.startswith(p)] *)
Fixpoint startswith (s p : string) : bool :=
  match p, s with
  | EmptyString, _ => true
  | String _ _, EmptyString => false
  | String b p', String c s' => Ascii.eqb c b && startswith s' p'
  end.

End Py.

(** ** Regular expressions, as far as the three patterns of [app.py] and the
    two of the builder need them *)

Module Re.

Inductive regex : Type :=
| Eps                         (* the empty pattern *)
| Chr (p : ascii → bool)      (* an item matching one character *)
| Seq (r1 r2 : regex)
| Alt (r1 r2 : regex)         (* [r1|r2], [r1] tried first *)
| Opt (r : regex)             (* [r?], greedy *)
| Star (p : ascii → bool)     (* [x*] for a one-character item, greedy *)
| Bol                         (* [^] *)
| Eol.                        (* [$] *)

(** [x+] for a one-character item. *)
Definition Plus (p : ascii → bool) : regex := Seq (Chr p) (Star p).

(** A literal character; under [re.IGNORECASE] it is compared after
    lower-casing. *)
Definition lit (ignorecase : bool) (c : ascii) : regex :=
  Chr (λ x, if ignorecase then Ascii.eqb (Py.lower_char x) (Py.lower_char c)
            else Ascii.eqb x c).

(** A literal word. *)
Fixpoint word (ignorecase : bool) (w : string) : regex :=
  match w with
  | EmptyString => Eps
  | String c EmptyString => lit ignorecase c
  | String c w' => Seq (lit ignorecase c) (word ignorecase w')
  end.

(** [\s] *)
Definition space : ascii → bool := Py.isspace.
(** [.] (no DOTALL): anything but a newline. *)
Definition dot (c : ascii) : bool := negb (Py.code c =? 10)%N.

(** [$] holds at the end and just before a final newline. *)
Definition at_eol (s : string) : bool :=
  match s with
  | EmptyString => true
  | String c EmptyString => (Py.code c =? 10)%N
  | _ => false
  end.

(** The backtracking matcher: [exec r k i s] matches [r] at index [i],
    where [s] is the text from [i] on, and hands the index and the rest
    to the continuation [k]; the first success in Python's priority
    order is the result. *)
Fixpoint star_exec (p : ascii → bool) (k : nat → string → option nat)
    (i : nat) (s : string) : option nat :=
  match s with
  | String c s' =>
      if p c then
        match star_exec p k (S i) s' with
        | Some j => Some j
        | None => k i s
        end
      else k i s
  | EmptyString => k i s
  end.

Fixpoint exec (r : regex) (k : nat → string → option nat)
    (i : nat) (s : string) : option nat :=
  match r with
  | Eps => k i s
  | Chr p =>
      match s with
      | String c s' => if p c then k (S i) s' else None
      | EmptyString => None
      end
  | Seq r1 r2 => exec r1 (exec r2 k) i s
  | Alt r1 r2 =>
      match exec r1 k i s with
      | Some j => Some j
      | None => exec r2 k i s
      end
  | Opt r1 =>
      match exec r1 k i s with
      | Some j => Some j
      | None => k i s
      end
  | Star p => star_exec p k i s
  | Bol => if Nat.eqb i 0 then k i s else None
  | Eol => if at_eol s then k i s else None
  end.

(** [pattern.match(s)]: the end of the match at index 0, if any. *)
Definition re_match (r : regex) (s : string) : option nat :=
  exec r (λ j _, Some j) 0%nat s.

(** [re.sub(pattern, '', s)]: every match, left to right and not
    overlapping, is deleted. [skip] counts the characters of the current
    match that are still to be dropped. *)
Fixpoint sub_from (r : regex) (i skip : nat) (s : string) : string :=
  match s with
  | EmptyString => EmptyString
  | String c s' =>
      match skip with
      | S n => sub_from r (S i) n s'
      | O =>
          match exec r (λ j _, Some j) i s with
          | Some j =>
              if Nat.eqb j i then String c (sub_from r (S i) 0 s')
              else sub_from r (S i) (j - i - 1) s'
          | None => String c (sub_from r (S i) 0 s')
          end
      end
  end.

Definition sub_empty (r : regex) (s : string) : string :=
  sub_from r 0 0 s.

(** [re.split(pattern, s)[0]]: the text before the leftmost match, the
    whole of [s] when there is none. *)
Fixpoint split_head_from (r : regex) (i : nat) (s : string) : string :=
  match exec r (λ j _, Some j) i s with
  | Some _ => EmptyString
  | None =>
      match s with
      | EmptyString => EmptyString
      | String c s' => String c (split_head_from r (S i) s')
      end
  end.

Definition split_head (r : regex) (s : string) : string :=
  split_head_from r 0 s.

End Re.

(** ** The line classifier *)

Local Open Scope char_scope.

(** [(INT|EXT|INT/EXT|I/E)], alternatives in the order of the source. *)
Definition scene_type (ignorecase : bool) : Re.regex :=
  Re.Alt (Re.word ignorecase "INT")
    (Re.Alt (Re.word ignorecase "EXT")
       (Re.Alt (Re.word ignorecase "INT/EXT") (Re.word ignorecase "I/E"))).

(** [re.compile(r'^\s*(INT|EXT|INT/EXT|I/E)\.?\s', re.IGNORECASE)] *)
Definition SCENE_HEADING_RE : Re.regex :=
  Re.Seq Re.Bol (Re.Seq (Re.Star Re.space)
    (Re.Seq (scene_type true)
       (Re.Seq (Re.Opt (Re.lit true ".")) (Re.Chr Re.space)))).

(** [[A-Z \t]] *)
Definition upper_blank (c : ascii) : bool :=
  Py.in_range 65 90 c || Ascii.eqb c " " || Ascii.eqb c "009".

(** [re.compile(r'^\s*[A-Z \t]+TO:\s*$')] *)
Definition TRANSITION_RE : Re.regex :=
  Re.Seq Re.Bol (Re.Seq (Re.Star Re.space)
    (Re.Seq (Re.Plus upper_blank)
       (Re.Seq (Re.word false "TO:") (Re.Seq (Re.Star Re.space) Re.Eol)))).

(** [[A-Z0-9 \-\(\)\'\.]] *)
Definition name_char (c : ascii) : bool :=
  Py.in_range 65 90 c || Py.in_range 48 57 c || Ascii.eqb c " "
  || Ascii.eqb c "-" || Ascii.eqb c "(" || Ascii.eqb c ")"
  || Ascii.eqb c "'" || Ascii.eqb c ".".

(** [re.compile(r'^\s*[A-Z0-9 \-\(\)\'\.]+(?:\(.*\))?\s*$')] *)
Definition CHARACTER_RE : Re.regex :=
  Re.Seq Re.Bol (Re.Seq (Re.Star Re.space)
    (Re.Seq (Re.Plus name_char)
       (Re.Seq
          (Re.Opt (Re.Seq (Re.lit false "(")
                     (Re.Seq (Re.Star Re.dot) (Re.lit false ")"))))
          (Re.Seq (Re.Star Re.space) Re.Eol)))).

Local Close Scope char_scope.

Definition is_scene_heading (line : string) : bool :=
  bool_decide (is_Some (Re.re_match SCENE_HEADING_RE (Py.strip line))).

Definition is_transition (line : string) : bool :=
  bool_decide (is_Some (Re.re_match TRANSITION_RE (Py.strip line))).

(** [upper_ratio > 0.8] is decided on the integers: the line has at most 60
    characters, so the quotient [upper / alpha] is either exactly 4/5, which
    rounds to the float 0.8 and is not above it, or differs from 4/5 by at
    least 1/300. *)
Definition is_character_cue (line : string) : bool :=
  let s := Py.strip line in
  if negb (Py.truthy s) || (60 <? Py.len s) then false
  else if is_scene_heading s || is_transition s then false
  else
    let alpha := Py.count Py.isalpha s in
    if alpha =? 0 then false
    else
      let upper := Py.count Py.isupper s in
      (4 * alpha <? 5 * upper)
      && bool_decide (is_Some (Re.re_match CHARACTER_RE s)).

(** ** The data model *)

Inductive kind := Action | Dialogue.

Definition kind_name (k : kind) : string :=
  match k with Action => "Action" | Dialogue => "Dialogue" end.

(** A beat is the tuple [(kind, text)]. *)
Definition beat : Type := kind * string.

(** The dictionary built for every scene heading. *)
Record scene := Scene {
  scene_number : Z;
  scene_heading : string;
  beats : list beat;
  characters : gset string
}.

Definition append_beat (sc : scene) (b : beat) : scene :=
  Scene (scene_number sc) (scene_heading sc) (beats sc ++ [b]) (characters sc).

Definition add_character (sc : scene) (c : string) : scene :=
  Scene (scene_number sc) (scene_heading sc) (beats sc) ({[c]} ∪ characters sc).

(** ** The parser *)

(** The local variables of [parse_fountain_text]. *)
Record pstate := PState {
  scenes : list scene;
  current_scene : option scene;
  buffer_action : list string;
  current_character : option string
}.

Definition initial : pstate := PState [] None [] None.

(** The text [t] that [flush_action_as_beat] joins from the buffer. *)
Definition action_text (buffer : list string) : string :=
  Py.join " "
    (map Py.strip (List.filter (λ l, Py.truthy (Py.strip l)) buffer)).

(** [flush_action_as_beat], on the current scene and the buffer; it is only
    called with a scene open. The result is the scene and the new buffer. *)
Definition flush_action_as_beat (sc : scene) (buffer : list string)
    : scene * list string :=
  match buffer with
  | [] => (sc, buffer)
  | _ :: _ =>
      let t := action_text buffer in
      (if Py.truthy t then append_beat sc (Action, t) else sc, [])
  end.

(** One turn of the loop [for raw in lines]. *)
Definition step (st : pstate) (raw : string) : pstate :=
  let line := Py.rstrip_char "010" raw in
  if is_scene_heading line then
    let scenes' :=
      match current_scene st with
      | Some sc => scenes st ++ [(flush_action_as_beat sc (buffer_action st)).1]
      | None => scenes st
      end in
    PState scenes'
      (Some (Scene (Z.of_nat (length scenes') + 1) (Py.strip line) [] ∅))
      [] None
  else
    match current_scene st with
    | None => st
    | Some sc =>
        if negb (Py.truthy (Py.strip line)) then
          let '(sc', buf') := flush_action_as_beat sc (buffer_action st) in
          PState (scenes st) (Some sc') buf' None
        else if is_character_cue line then
          let '(sc', buf') := flush_action_as_beat sc (buffer_action st) in
          let cc := Py.strip line in
          PState (scenes st) (Some (add_character sc' cc)) buf' (Some cc)
        else if Py.truthy_opt (current_character st) then
          let txt := Py.strip line in
          let sc' :=
            if Py.truthy txt then
              append_beat sc
                (Dialogue, default "" (current_character st) +:+ ": " +:+ txt)
            else sc in
          PState (scenes st) (Some sc') (buffer_action st) (current_character st)
        else if is_transition line then
          let '(sc', buf') := flush_action_as_beat sc (buffer_action st) in
          PState (scenes st) (Some sc') buf' (current_character st)
        else
          PState (scenes st) (Some sc) (buffer_action st ++ [line])
            (current_character st)
    end.

(** What follows the loop: the open scene is flushed and appended. *)
Definition finish (st : pstate) : list scene :=
  match current_scene st with
  | Some sc => scenes st ++ [(flush_action_as_beat sc (buffer_action st)).1]
  | None => scenes st
  end.

Definition parse_fountain_text (text : string) : list scene :=
  finish (foldl step initial (Py.splitlines text)).

(** ** The shotlist builder *)

(** The dictionary [possible_map], in insertion order: each logical field
    with its aliases. *)
Definition possible_map : list (string * list string) :=
  [ ("Scene #", ["Scene #"; "Scene"; "Scene No"; "Scene Number"]);
    ("Scene Heading", ["Scene Heading"; "Heading"; "Slugline"]);
    ("Beat/Action", ["Beat/Action"; "Beat"; "Action"; "Description"; "What Happens"]);
    ("Shot #", ["Shot #"; "Shot Number"; "Shot"]);
    ("Shot Type", ["Shot Type"; "Type"]);
    ("Angle", ["Angle"]);
    ("Movement", ["Movement"; "Move"]);
    ("Lens", ["Lens"]);
    ("Duration (s)", ["Duration (s)"; "Duration"; "Est. Duration (s)"]);
    ("Location", ["Location"]);
    ("Characters", ["Characters"; "Cast"]);
    ("Notes", ["Notes"]) ].

(** The logical fields, in catalog order. *)
Definition logical_fields : list string := possible_map.*1.

(** [x.strip().lower()] *)
Definition norm (x : string) : string := Py.lower (Py.strip x).

(** The loop [for c in columns]: the first column equal to the alias after
    trimming and lower-casing. *)
Definition scan_columns (columns : list string) (alias : string)
    : option string :=
  List.find (λ c, String.eqb (norm c) (norm alias)) columns.

(** The loop [for alias in aliases], with the value of [match] so far; it
    is left as soon as [match] is truthy. *)
Fixpoint scan_aliases (columns : list string) (aliases : list string)
    (found : option string) : option string :=
  match aliases with
  | [] => found
  | alias :: rest =>
      let found' :=
        match scan_columns columns alias with
        | Some c => Some c
        | None => found
        end in
      if Py.truthy_opt found' then found'
      else scan_aliases columns rest found'
  end.

(** One turn of [for logical, aliases in possible_map.items()], on
    [col_map] and the working copy of [columns]. *)
Definition resolve_field (acc : gmap string string * list string)
    (entry : string * list string) : gmap string string * list string :=
  let '(col_map, columns) := acc in
  let '(logical, aliases) := entry in
  match scan_aliases columns aliases None with
  | Some found => (<[logical := found]> col_map, columns)
  | None =>
      (<[logical := logical]> col_map,
       if bool_decide (logical ∈ columns) then columns
       else columns ++ [logical])
  end.

Definition resolve_columns (columns : list string)
    : gmap string string * list string :=
  foldl resolve_field (∅, columns) possible_map.

(** The loop that fills [uniq_cols]. *)
Fixpoint uniq_from (seen : gset string) (columns : list string)
    : list string :=
  match columns with
  | [] => []
  | c :: rest =>
      if bool_decide (c ∈ seen) then uniq_from seen rest
      else c :: uniq_from ({[c]} ∪ seen) rest
  end.

(** A cell of a row: a string or an integer. *)
Inductive cell :=
| CStr (s : string)
| CInt (n : Z).

(** [col_map[logical]] *)
Definition col (col_map : gmap string string) (logical : string) : string :=
  col_map !!! logical.

(** [{c: "" for c in uniq_cols}] *)
Definition blank_row (uniq_cols : list string) : gmap string cell :=
  foldl (λ row c, <[c := CStr ""]> row) ∅ uniq_cols.

Local Open Scope char_scope.

(** [r'^\s*(INT|EXT|INT/EXT|I/E)\.?\s*'] with [re.IGNORECASE] *)
Definition PREFIX_RE : Re.regex :=
  Re.Seq Re.Bol (Re.Seq (Re.Star Re.space)
    (Re.Seq (scene_type true)
       (Re.Seq (Re.Opt (Re.lit true ".")) (Re.Star Re.space)))).

(** [r'\s*-\s*'] *)
Definition HYPHEN_RE : Re.regex :=
  Re.Seq (Re.Star Re.space) (Re.Seq (Re.lit false "-") (Re.Star Re.space)).

Local Close Scope char_scope.

(** The value of [loc]; neither call can raise on a [str]. *)
Definition location (heading : string) : string :=
  let head_no_prefix := Re.sub_empty PREFIX_RE heading in
  Py.strip (Re.split_head HYPHEN_RE head_no_prefix).

(** [", ".join(sorted(sc["characters"])) if sc["characters"] else ""] *)
Definition char_list (sc : scene) : string :=
  if bool_decide (characters sc = ∅) then ""
  else Py.join ", " (merge_sort String.le (elements (characters sc))).

(** The body of the loop over the beats: the row of one beat. *)
Definition make_row (uniq_cols : list string) (col_map : gmap string string)
    (sc : scene) (shot_counter : Z) (b : beat) : gmap string cell :=
  let row := blank_row uniq_cols in
  let row := <[col col_map "Scene #" := CInt (scene_number sc)]> row in
  let row := <[col col_map "Scene Heading" := CStr (scene_heading sc)]> row in
  let row := <[col col_map "Beat/Action" :=
                 CStr ("[" +:+ kind_name b.1 +:+ "] " +:+ b.2)]> row in
  let row := <[col col_map "Shot #" := CInt shot_counter]> row in
  let row := <[col col_map "Shot Type" := CStr "MS"]> row in
  let row := <[col col_map "Angle" := CStr "Eye-level"]> row in
  let row := <[col col_map "Movement" := CStr "Static"]> row in
  let row := <[col col_map "Lens" := CStr "35mm"]> row in
  let row := <[col col_map "Location" := CStr (location (scene_heading sc))]> row in
  let row := <[col col_map "Characters" := CStr (char_list sc)]> row in
  let row := <[col col_map "Notes" := CStr ""]> row in
  row.

(** The loop [for kind, beat_text in sc["beats"]], with [shot_counter]. *)
Fixpoint scene_rows (mk : Z → beat → gmap string cell) (shot_counter : Z)
    (bs : list beat) : list (gmap string cell) :=
  match bs with
  | [] => []
  | b :: bs' => mk shot_counter b :: scene_rows mk (shot_counter + 1) bs'
  end.

(** [pd.DataFrame(rows, columns=uniq_cols)]: the columns and the rows. *)
Record dataframe := DataFrame {
  df_columns : list string;
  df_rows : list (gmap string cell)
}.

Definition build_shotlist_from_scenes (scs : list scene)
    (columns : list string) : dataframe :=
  let '(col_map, columns') := resolve_columns columns in
  let uniq_cols := uniq_from ∅ columns' in
  let rows :=
    flat_map (λ sc, scene_rows (make_row uniq_cols col_map sc) 1 (beats sc))
      scs in
  DataFrame uniq_cols rows.

(** The column resolved for a logical field, and the output columns. *)
Definition resolved (columns : list string) (logical : string) : string :=
  col (resolve_columns columns).1 logical.

(** ** The reference column helper *)

Definition default_cols : list string :=
  ["Scene #"; "Scene Heading"; "Beat/Action"; "Shot #"; "Shot Type";
   "Angle"; "Movement"; "Lens"; "Duration (s)"; "Location"; "Characters";
   "Notes"].

(** [find_reference_columns_from_df], on the column labels of the frame as
    [str(c)] gives them ([labels] is [[str(c) for c in df0.columns.tolist()]]);
    on a data frame nothing in the [try] block raises. *)
Definition find_reference_columns_from_df (labels : list string)
    : list string :=
  let cols := map Py.strip labels in
  let cols :=
    List.filter
      (λ c, Py.truthy c && negb (Py.startswith (Py.lower c) "unnamed"))
      cols in
  match cols with
  | [] => default_cols
  | _ :: _ => cols
  end.

(** ** Vocabulary of the statements *)

(** A line feed, and a document given by its lines. *)
Definition LF : string := String "010"%char EmptyString.
Definition document (lines : list string) : string := Py.join LF lines.

(** A string of whitespace only: the strings that [strip] empties. *)
Fixpoint blank (s : string) : bool :=
  match s with
  | EmptyString => true
  | String c s' => Py.isspace c && blank s'
  end.

(** The lines of a document that the parser takes as scene headings. *)
Definition heading_lines (text : string) : list string :=
  List.filter (λ raw, is_scene_heading (Py.rstrip_char "010"%char raw))
    (Py.splitlines text).

(** The total number of beats of a list of scenes. *)
Definition total_beats (scs : list scene) : nat :=
  sum_list (map (λ sc, length (beats sc)) scs).

(** The scenes of a parser state: the closed ones, then the open one. *)
Definition all_scenes (st : pstate) : list scene :=
  scenes st ++ option_list (current_scene st).

(** Number and heading of a scene. *)
Definition signature (sc : scene) : Z * string :=
  (scene_number sc, scene_heading sc).

(** Headings numbered from [k] on. *)
Fixpoint number_from (k : Z) (hs : list string) : list (Z * string) :=
  match hs with
  | [] => []
  | h :: hs' => (k, h) :: number_from (k + 1) hs'
  end.

(** The first logical field that has an alias equal to [x] after trimming
    and lower-casing. *)
Definition field_of_norm (x : string) : option string :=
  fst <$> List.find
    (λ e : string * list string,
       existsb (λ a, String.eqb (norm a) x) e.2)
    possible_map.

(** A scene all of whose beats have text that is not blank. *)
Definition inked_scene (sc : scene) : Prop :=
  Forall (λ b : beat, blank b.2 = false) (beats sc).

(** The line that the loop of the parser works on. *)
Definition line_of (raw : string) : string := Py.rstrip_char "010"%char raw.

(** Example states: a scene just opened by [INT. ROOM], with one buffered
    action line and nobody speaking, and the same scene with JOHN
    speaking. *)
Definition room : scene := Scene 1 "INT. ROOM" [] ∅.
Definition in_action : pstate := PState [] (Some room) ["He runs."] None.
Definition in_dialogue : pstate := PState [] (Some room) [] (Some "JOHN").

(** The example document of the specification. *)
Definition kitchen : string :=
  document ["INT. KITCHEN - DAY"; "John walks in."; ""; "JOHN"; "Hello."; ""].

(** The cells of a row, in the order of the output columns. *)
Definition cells (df : dataframe) : list (list (option cell)) :=
  map (λ row : gmap string cell, map (λ c, row !! c) (df_columns df))
    (df_rows df).

(** All characters of a string satisfy [p]. *)
Fixpoint all_chars (p : ascii → bool) (s : string) : bool :=
  match s with
  | EmptyString => true
  | String c s' => p c && all_chars p s'
  end.

(** The parser on the lines of a document. *)
Definition parse_lines (ls : list string) : list scene :=
  finish (foldl step initial ls).

(** A scene with its number moved up by [k]. *)
Definition renumber (k : nat) (sc : scene) : scene :=
  Scene (scene_number sc + Z.of_nat k) (scene_heading sc) (beats sc)
    (characters sc).

(** The fields that the body of the row loop assigns, in the order of the
    assignments, and the one it leaves alone. *)
Definition assigned_fields : list string :=
  ["Scene #"; "Scene Heading"; "Beat/Action"; "Shot #"; "Shot Type"; "Angle";
   "Movement"; "Lens"; "Location"; "Characters"; "Notes"].

(** The text of the cell [Beat/Action] of a beat. *)
Definition beat_cell (b : beat) : cell :=
  CStr ("[" +:+ kind_name b.1 +:+ "] " +:+ b.2).

(** A trimmed, non-empty string. *)
Definition trimmed (s : string) : Prop := Py.strip s = s ∧ s ≠ "".

(** What the parser keeps of a beat in a scene with the cues [chars]: an
    action text is trimmed; a dialogue text is a cue of the scene, a colon
    and a space, and a trimmed line. *)
Definition well_formed_beat (chars : gset string) (b : beat) : Prop :=
  match b.1 with
  | Action => trimmed b.2
  | Dialogue =>
      ∃ ch txt, b.2 = ch +:+ ": " +:+ txt ∧ ch ∈ chars ∧ trimmed txt
  end.

(** What the parser keeps of a scene: its characters are trimmed cue lines
    and its beats are well formed. *)
Definition well_formed_scene (sc : scene) : Prop :=
  set_Forall (λ ch, is_character_cue ch = true ∧ trimmed ch) (characters sc)
  ∧ Forall (well_formed_beat (characters sc)) (beats sc).

(** The same for a parser state: the speaker, if any, is a character of the
    open scene. *)
Definition well_formed_state (st : pstate) : Prop :=
  Forall well_formed_scene (all_scenes st)
  ∧ ∀ ch, current_character st = Some ch →
          ∃ sc, current_scene st = Some sc ∧ ch ∈ characters sc.

(** A parser state that continues the scenes [pre]. *)
Definition shift_state (pre : list scene) (st : pstate) : pstate :=
  PState (pre ++ map (renumber (length pre)) (scenes st))
    (renumber (length pre) <$> current_scene st)
    (buffer_action st) (current_character st).

(** The beats and the pending buffer of a state, counted in lines. *)
Definition weight (st : pstate) : nat :=
  total_beats (all_scenes st) + length (all_scenes st)
  + match buffer_action st with [] => 0 | _ :: _ => 1 end.

(** A string without a line boundary. *)
Definition one_line (s : string) : bool :=
  all_chars (λ c, negb (Py.is_linebreak c)) s.

(** ** Facts on the string primitives *)

Section strings.

Lemma truthy_true (s : string) : Py.truthy s = true ↔ s ≠ "".
Proof. destruct s; simpl; split; first [done | congruence]. Qed.

Lemma truthy_false (s : string) : Py.truthy s = false ↔ s = "".
Proof. destruct s; simpl; split; first [done | congruence]. Qed.

Lemma lstrip_blank (s : string) : Py.lstrip s = "" ↔ blank s = true.
Proof.
  induction s as [|c s IH]; simpl; [done|].
  destruct (Py.isspace c); simpl; [done|]. split; congruence.
Qed.

Lemma rstrip_blank (s : string) : Py.rstrip s = "" ↔ blank s = true.
Proof.
  induction s as [|c s IH]; simpl; [done|].
  destruct (Py.rstrip s) eqn:Hr.
  - destruct (Py.isspace c); simpl; [tauto|]. split; congruence.
  - split; [congruence|]. intros [_ Hb]%andb_true_iff.
    apply IH in Hb. congruence.
Qed.

Lemma blank_lstrip (s : string) : blank (Py.lstrip s) = blank s.
Proof.
  induction s as [|c s IH]; simpl; [done|].
  destruct (Py.isspace c) eqn:Hc; simpl; [done|]. by rewrite Hc.
Qed.

Lemma strip_blank (s : string) : Py.strip s = "" ↔ blank s = true.
Proof. unfold Py.strip. by rewrite rstrip_blank, blank_lstrip. Qed.

Lemma blank_rstrip (s : string) : blank (Py.rstrip s) = blank s.
Proof.
  induction s as [|c s IH]; simpl; [done|].
  destruct (Py.rstrip s) eqn:Hr.
  - apply rstrip_blank in Hr as ->.
    destruct (Py.isspace c) eqn:Hc; simpl; by rewrite ?Hc.
  - simpl in *. by rewrite IH.
Qed.

Lemma blank_strip (s : string) : blank (Py.strip s) = blank s.
Proof. unfold Py.strip. by rewrite blank_rstrip, blank_lstrip. Qed.

Lemma blank_app (s t : string) : blank (s +:+ t) = blank s && blank t.
Proof.
  induction s as [|c s IH]; simpl; [done|]. by rewrite IH, andb_assoc.
Qed.

(** A string that does not start with whitespace is left by [lstrip]. *)
Lemma lstrip_fixed (c : ascii) (s : string) :
  Py.isspace c = false → Py.lstrip (String c s) = String c s.
Proof. simpl. by intros ->. Qed.

Lemma rstrip_idemp (s : string) : Py.rstrip (Py.rstrip s) = Py.rstrip s.
Proof.
  induction s as [|c s IH]; simpl; [done|].
  destruct (Py.rstrip s) eqn:Hr.
  - destruct (Py.isspace c) eqn:Hc; simpl; [done|]. by rewrite Hc.
  - simpl. simpl in IH. by rewrite IH.
Qed.

Lemma rstrip_head (c : ascii) (s : string) :
  Py.isspace c = false → ∃ r, Py.rstrip (String c s) = String c r.
Proof.
  intros Hc. simpl. destruct (Py.rstrip s); rewrite ?Hc; eauto.
Qed.

Lemma lstrip_head (s : string) :
  Py.lstrip s = "" ∨ ∃ c r, Py.lstrip s = String c r ∧ Py.isspace c = false.
Proof.
  induction s as [|c s IH]; simpl; [by left|].
  destruct (Py.isspace c) eqn:Hc; [done|]. right. eauto.
Qed.

Lemma strip_idemp (s : string) : Py.strip (Py.strip s) = Py.strip s.
Proof.
  unfold Py.strip.
  destruct (lstrip_head s) as [->|(c & r & -> & Hc)]; [done|].
  destruct (rstrip_head c r Hc) as [r' Hr]. rewrite Hr.
  rewrite (lstrip_fixed c r' Hc), <- Hr. apply rstrip_idemp.
Qed.

End strings.

(** ** The parser: scene numbers and headings *)

Section parser.

Lemma foldl_preserves {A B : Type} (P : A → Prop) (f : A → B → A)
    (l : list B) (a : A) :
  P a → (∀ a' b, P a' → P (f a' b)) → P (foldl f a l).
Proof.
  intros Ha Hf. revert a Ha.
  induction l as [|b l IH]; simpl; [done|]. intros a Ha. apply IH. by apply Hf.
Qed.

Lemma flush_signature (sc : scene) (buf : list string) :
  signature (flush_action_as_beat sc buf).1 = signature sc.
Proof. destruct buf; simpl; [done|]. by destruct (Py.truthy _). Qed.

Lemma flush_buffer (sc : scene) (buf : list string) :
  (flush_action_as_beat sc buf).2 = [].
Proof. by destruct buf. Qed.

Lemma step_signatures (st : pstate) (raw : string) :
  map signature (all_scenes (step st raw)) =
  if is_scene_heading (line_of raw) then
    map signature (all_scenes st)
    ++ [(Z.of_nat (length (all_scenes st)) + 1, Py.strip (line_of raw))]
  else map signature (all_scenes st).
Proof.
  unfold step, all_scenes, line_of.
  destruct (is_scene_heading _); simpl.
  - destruct (current_scene st) as [sc|]; simpl.
    + rewrite !map_app, !length_app. simpl. by rewrite flush_signature.
    + by rewrite !app_nil_r, map_app.
  - destruct (current_scene st) as [sc|] eqn:Hsc; simpl; [|by rewrite Hsc].
    pose proof (flush_signature sc (buffer_action st)) as Hf.
    destruct (flush_action_as_beat sc (buffer_action st)) as [sc' buf'].
    simpl in Hf.
    unfold signature in *. injection Hf as Hn Hh.
    repeat case_match; simpl; rewrite ?map_app; simpl;
      by rewrite ?Hn, ?Hh.
Qed.

Lemma step_length (st : pstate) (raw : string) :
  length (all_scenes (step st raw)) =
  if is_scene_heading (line_of raw) then S (length (all_scenes st))
  else length (all_scenes st).
Proof.
  rewrite <- (length_map signature), step_signatures.
  destruct (is_scene_heading _); rewrite ?length_app, length_map; simpl; lia.
Qed.

Lemma foldl_signatures (ls : list string) (st : pstate) :
  map signature (all_scenes (foldl step st ls)) =
  map signature (all_scenes st)
  ++ number_from (Z.of_nat (length (all_scenes st)) + 1)
       (map (λ raw, Py.strip (line_of raw))
          (List.filter (λ raw, is_scene_heading (line_of raw)) ls)).
Proof.
  revert st. induction ls as [|raw ls IH]; intros st; simpl.
  { by rewrite app_nil_r. }
  rewrite IH, step_signatures, step_length.
  destruct (is_scene_heading (line_of raw)); simpl; [|done].
  rewrite <- app_assoc. simpl. do 3 f_equal. lia.
Qed.

Lemma finish_signatures (st : pstate) :
  map signature (finish st) = map signature (all_scenes st).
Proof.
  unfold finish, all_scenes.
  destruct (current_scene st); simpl; [|by rewrite app_nil_r].
  rewrite !map_app. simpl. by rewrite flush_signature.
Qed.

Lemma number_from_fst (k : Z) (hs : list string) :
  (number_from k hs).*1 = seqZ k (Z.of_nat (length hs)).
Proof.
  revert k. induction hs as [|h hs IH]; intros k; simpl; [done|].
  rewrite IH, (seqZ_cons k) by lia. do 2 f_equal; lia.
Qed.

Lemma number_from_snd (k : Z) (hs : list string) : (number_from k hs).*2 = hs.
Proof. revert k. induction hs as [|h hs IH]; intros k; simpl; by rewrite ?IH. Qed.

Lemma signature_fst (l : list scene) :
  map scene_number l = (map signature l).*1.
Proof. induction l as [|sc l IH]; simpl; by rewrite ?IH. Qed.

Lemma signature_snd (l : list scene) :
  map scene_heading l = (map signature l).*2.
Proof. induction l as [|sc l IH]; simpl; by rewrite ?IH. Qed.

Lemma parse_signatures (text : string) :
  map signature (parse_fountain_text text) =
  number_from 1 (map (λ raw, Py.strip (line_of raw)) (heading_lines text)).
Proof.
  unfold parse_fountain_text. by rewrite finish_signatures, foldl_signatures.
Qed.

End parser.

(** ** The parser: beats are never blank *)

Section beats.

Lemma join_inked (sep : string) (l : list string) :
  Forall (λ x, blank x = false) l → l ≠ [] → blank (Py.join sep l) = false.
Proof.
  intros Hl Hne. destruct l as [|x [|y l]]; [done|..].
  - by apply Forall_inv in Hl.
  - apply Forall_inv in Hl.
    change (Py.join sep (x :: y :: l))
      with (x +:+ sep +:+ Py.join sep (y :: l)).
    by rewrite blank_app, Hl.
Qed.

Lemma strip_inked (s : string) :
  Py.truthy (Py.strip s) = true → blank (Py.strip s) = false.
Proof.
  intros Ht%truthy_true. rewrite blank_strip.
  destruct (blank s) eqn:Hb; [|done]. by apply strip_blank in Hb.
Qed.

Lemma action_text_inked (buf : list string) :
  Py.truthy (action_text buf) = true → blank (action_text buf) = false.
Proof.
  unfold action_text. intros Ht. apply join_inked.
  - apply Forall_map, Forall_forall.
    intros l [_ Hl]%list_elem_of_In%filter_In. by apply strip_inked.
  - intros Hnil. by rewrite Hnil in Ht.
Qed.

Lemma action_text_blank (buf : list string) :
  Forall (λ l, Py.strip l = "") buf → action_text buf = "".
Proof.
  intros Hb. unfold action_text.
  assert (List.filter (λ l, Py.truthy (Py.strip l)) buf = []) as ->; [|done].
  induction Hb as [|l buf Hl _ IH]; simpl; [done|]. by rewrite Hl.
Qed.

Lemma flush_inked (sc : scene) (buf : list string) :
  inked_scene sc → inked_scene (flush_action_as_beat sc buf).1.
Proof.
  intros Hsc. destruct buf as [|l buf]; simpl; [done|].
  destruct (Py.truthy _) eqn:Ht; [|done].
  apply Forall_app. split; [done|].
  constructor; [|done]. by apply action_text_inked.
Qed.

Lemma step_inked (st : pstate) (raw : string) :
  Forall inked_scene (all_scenes st) →
  Forall inked_scene (all_scenes (step st raw)).
Proof.
  unfold all_scenes, step. intros [Hs Hc]%Forall_app.
  destruct (is_scene_heading _); simpl.
  - apply Forall_app. split; [|by repeat constructor].
    destruct (current_scene st) as [sc|]; simpl in *; [|done].
    apply Forall_app. split; [done|]. constructor; [|done].
    apply flush_inked. by apply Forall_inv in Hc.
  - destruct (current_scene st) as [sc|] eqn:Hsc; simpl in *.
    2:{ rewrite Hsc. apply Forall_app. by split. }
    apply Forall_inv in Hc.
    pose proof (flush_inked sc (buffer_action st) Hc) as Hf.
    destruct (flush_action_as_beat sc (buffer_action st)) as [sc' buf'].
    simpl in Hf.
    repeat case_match; simpl; apply Forall_app; split; try done;
      constructor; try done.
    apply Forall_app. split; [done|]. constructor; [|done]. simpl.
    by rewrite !blank_app, andb_false_r.
Qed.

Lemma parse_inked (text : string) :
  Forall inked_scene (parse_fountain_text text).
Proof.
  unfold parse_fountain_text.
  assert (Forall inked_scene (all_scenes (foldl step initial (Py.splitlines text))))
    as [Hs Hc]%Forall_app.
  { apply (foldl_preserves (λ st, Forall inked_scene (all_scenes st)));
      [by constructor | apply step_inked]. }
  unfold finish. destruct (current_scene _) as [sc|]; simpl in *; [|done].
  apply Forall_app. split; [done|]. constructor; [|done].
  apply flush_inked. by apply Forall_inv in Hc.
Qed.

End beats.

(** ** The parser: what one line does *)

Section lines.

Lemma transition_idemp (line : string) :
  is_transition (Py.strip line) = is_transition line.
Proof. unfold is_transition. by rewrite strip_idemp. Qed.

Lemma transition_not_cue (line : string) :
  is_transition line = true → is_character_cue line = false.
Proof.
  intros Ht. unfold is_character_cue. rewrite transition_idemp, Ht.
  rewrite orb_true_r. by destruct (_ || _).
Qed.

Lemma transition_nonblank (line : string) :
  is_transition line = true → Py.truthy (Py.strip line) = true.
Proof.
  unfold is_transition. by destruct (Py.strip line).
Qed.

(** A line that is trimmed to [TO:] is no heading, no cue, no transition. *)
Lemma bare_to_class (line : string) :
  Py.strip line = "TO:" →
  is_scene_heading line = false ∧ is_character_cue line = false
  ∧ is_transition line = false.
Proof.
  intros H. unfold is_character_cue, is_scene_heading, is_transition.
  rewrite H. by vm_compute.
Qed.

Lemma step_bare_to (st : pstate) (sc : scene) (raw : string) :
  current_scene st = Some sc →
  Py.truthy_opt (current_character st) = false →
  Py.strip (line_of raw) = "TO:" →
  step st raw =
  PState (scenes st) (Some sc) (buffer_action st ++ [line_of raw])
    (current_character st).
Proof.
  intros Hsc Hcc Hto. destruct (bare_to_class _ Hto) as (Hh & Hq & Ht).
  unfold step. fold (line_of raw). by rewrite Hh, Hsc, Hto, Hq, Hcc, Ht.
Qed.

Lemma step_transition (st : pstate) (sc : scene) (raw : string) :
  current_scene st = Some sc →
  Py.truthy_opt (current_character st) = false →
  is_transition (line_of raw) = true →
  is_scene_heading (line_of raw) = false →
  step st raw =
  PState (scenes st)
    (Some (flush_action_as_beat sc (buffer_action st)).1) []
    (current_character st).
Proof.
  intros Hsc Hcc Ht Hh. unfold step. fold (line_of raw).
  rewrite Hh, Hsc, (transition_nonblank _ Ht), (transition_not_cue _ Ht).
  rewrite Hcc, Ht. simpl.
  pose proof (flush_buffer sc (buffer_action st)).
  by destruct (flush_action_as_beat _ _); simplify_eq/=.
Qed.

Lemma step_dialogue (st : pstate) (sc : scene) (ch raw : string) :
  current_scene st = Some sc →
  current_character st = Some ch →
  Py.truthy ch = true →
  is_scene_heading (line_of raw) = false →
  is_character_cue (line_of raw) = false →
  Py.truthy (Py.strip (line_of raw)) = true →
  step st raw =
  PState (scenes st)
    (Some (append_beat sc (Dialogue, ch +:+ ": " +:+ Py.strip (line_of raw))))
    (buffer_action st) (Some ch).
Proof.
  intros Hsc Hcc Hch Hh Hq Hnb. unfold step. fold (line_of raw).
  rewrite Hh, Hsc, Hnb, Hq, Hcc. simpl. by rewrite Hch.
Qed.

End lines.

(** ** The column resolver *)

Section resolver.

Lemma find_app_Some {A : Type} (f : A → bool) (l1 l2 : list A) (x : A) :
  List.find f l1 = Some x → List.find f (l1 ++ l2) = Some x.
Proof.
  induction l1 as [|y l1 IH]; simpl; [done|]. by destruct (f y).
Qed.

Lemma scan_columns_spec (columns : list string) (alias c : string) :
  scan_columns columns alias = Some c → c ∈ columns ∧ norm c = norm alias.
Proof.
  intros [Hin Heq]%find_some. split; [by apply list_elem_of_In|].
  by apply String.eqb_eq.
Qed.

Lemma scan_aliases_spec (columns aliases : list string)
    (found : option string) (m : string) :
  scan_aliases columns aliases found = Some m →
  found = Some m ∨ ∃ a, a ∈ aliases ∧ norm m = norm a.
Proof.
  revert found. induction aliases as [|a aliases IH]; intros found; simpl.
  { by left. }
  destruct (scan_columns columns a) as [c|] eqn:Hc.
  - apply scan_columns_spec in Hc as [_ Hc].
    destruct (Py.truthy_opt (Some c)).
    + intros [= <-]. right. exists a. split; [by left | done].
    + intros [[= <-]|(b & Hb & Hm)]%IH; right.
      * exists a. split; [by left | done].
      * exists b. split; [by right | done].
  - destruct (Py.truthy_opt found).
    + by left.
    + intros [?|(b & Hb & Hm)]%IH; [by left|].
      right. exists b. split; [by right | done].
Qed.

Lemma resolve_field_columns (cm : gmap string string) (cols : list string)
    (e : string * list string) :
  ∃ ext, (resolve_field (cm, cols) e).2 = cols ++ ext.
Proof.
  destruct e as [l aliases]. simpl.
  destruct (scan_aliases cols aliases None); simpl.
  - exists []. by rewrite app_nil_r.
  - case_bool_decide; [exists []; by rewrite app_nil_r | by exists [l]].
Qed.

Lemma resolve_field_lookup_ne (cm : gmap string string) (cols : list string)
    (e : string * list string) (l : string) :
  l ≠ e.1 → (resolve_field (cm, cols) e).1 !! l = cm !! l.
Proof.
  destruct e as [l' aliases]. simpl. intros Hne.
  destruct (scan_aliases cols aliases None); simpl;
    by rewrite lookup_insert_ne.
Qed.

Lemma resolve_field_lookup (cm : gmap string string) (cols : list string)
    (l : string) (aliases : list string) :
  (resolve_field (cm, cols) (l, aliases)).1 !! l =
  Some (default l (scan_aliases cols aliases None)).
Proof.
  simpl. destruct (scan_aliases cols aliases None); simpl;
    by rewrite lookup_insert_eq.
Qed.

Lemma fold_lookup_notin (entries : list (string * list string))
    (cm : gmap string string) (cols : list string) (l : string) :
  l ∉ entries.*1 →
  (foldl resolve_field (cm, cols) entries).1 !! l = cm !! l.
Proof.
  revert cm cols. induction entries as [|e entries IH]; intros cm cols Hl.
  { done. }
  cbn [foldl fmap list_fmap] in *. apply not_elem_of_cons in Hl as [Hne Hl].
  destruct (resolve_field (cm, cols) e) as [cm' cols'] eqn:He.
  rewrite IH by done.
  change cm' with (cm', cols').1. rewrite <- He.
  by apply resolve_field_lookup_ne.
Qed.

Lemma fold_lookup_spec (entries : list (string * list string))
    (cm : gmap string string) (cols : list string)
    (l : string) (aliases : list string) :
  NoDup entries.*1 → (l, aliases) ∈ entries →
  ∃ ext, (foldl resolve_field (cm, cols) entries).1 !! l =
         Some (default l (scan_aliases (cols ++ ext) aliases None)).
Proof.
  revert cm cols.
  induction entries as [|e entries IH]; intros cm cols Hnd Hin.
  { by apply elem_of_nil in Hin. }
  cbn [fmap list_fmap] in Hnd. apply NoDup_cons in Hnd as [Hfresh Hnd].
  apply elem_of_cons in Hin as [<-|Hin]; cbn [foldl].
  - exists []. rewrite app_nil_r.
    destruct (resolve_field (cm, cols) (l, aliases)) as [cm' cols'] eqn:He.
    rewrite fold_lookup_notin by done.
    change cm' with (cm', cols').1. rewrite <- He.
    apply resolve_field_lookup.
  - destruct (resolve_field_columns cm cols e) as [ext0 Hext].
    destruct (resolve_field (cm, cols) e) as [cm' cols'].
    simpl in Hext. subst cols'.
    destruct (IH cm' (cols ++ ext0) Hnd Hin) as [ext Hl].
    exists (ext0 ++ ext). by rewrite app_assoc.
Qed.

Lemma possible_map_NoDup : NoDup possible_map.*1.
Proof. apply (bool_decide_unpack _). by vm_compute. Qed.

(** Every alias of a field belongs to that field only, also after
    trimming and lower-casing; the canonical name is one of them. *)
Lemma possible_map_disjoint :
  Forall (λ e : string * list string,
            Forall (λ a, field_of_norm (norm a) = Some e.1) (e.1 :: e.2))
    possible_map.
Proof. apply (bool_decide_unpack _). by vm_compute. Qed.

(** The canonical name is the first alias of every field, and it is not
    blank. *)
Lemma possible_map_heads :
  Forall (λ e : string * list string,
            head e.2 = Some e.1 ∧ norm e.1 ≠ norm "")
    possible_map.
Proof. apply (bool_decide_unpack _). by vm_compute. Qed.

Lemma logical_field_entry (l : string) :
  l ∈ logical_fields → ∃ aliases, (l, aliases) ∈ possible_map.
Proof.
  unfold logical_fields. intros ([l' aliases] & -> & Hin)%list_elem_of_fmap.
  by exists aliases.
Qed.

Lemma resolved_spec (columns : list string) (l : string)
    (aliases : list string) :
  (l, aliases) ∈ possible_map →
  ∃ ext, resolved columns l =
         default l (scan_aliases (columns ++ ext) aliases None).
Proof.
  intros Hin. unfold resolved, resolve_columns, col.
  destruct (fold_lookup_spec possible_map ∅ columns l aliases
              possible_map_NoDup Hin) as [ext Hl].
  exists ext. by apply lookup_total_correct.
Qed.

(** The resolved column names its field. *)
Lemma resolved_field (columns : list string) (l : string) :
  l ∈ logical_fields → field_of_norm (norm (resolved columns l)) = Some l.
Proof.
  intros [aliases Hin]%logical_field_entry.
  destruct (resolved_spec columns l aliases Hin) as [ext ->].
  pose proof possible_map_disjoint as Hd.
  rewrite Forall_forall in Hd. specialize (Hd _ Hin). simpl in Hd.
  rewrite Forall_forall in Hd.
  destruct (scan_aliases _ aliases None) as [m|] eqn:Hm; simpl.
  - apply scan_aliases_spec in Hm as [?|(a & Ha & ->)]; [done|].
    apply Hd. by right.
  - apply Hd. by left.
Qed.

Lemma resolved_inj (columns : list string) (l1 l2 : string) :
  l1 ∈ logical_fields → l2 ∈ logical_fields →
  resolved columns l1 = resolved columns l2 → l1 = l2.
Proof.
  intros H1 H2 Heq.
  pose proof (resolved_field columns l1 H1) as E1.
  pose proof (resolved_field columns l2 H2) as E2.
  rewrite Heq in E1. congruence.
Qed.

Lemma resolved_canonical (columns : list string) (l c : string) :
  l ∈ logical_fields → scan_columns columns l = Some c →
  resolved columns l = c.
Proof.
  intros [aliases Hin]%logical_field_entry Hc.
  destruct (resolved_spec columns l aliases Hin) as [ext ->].
  pose proof possible_map_heads as Hh.
  rewrite Forall_forall in Hh. destruct (Hh _ Hin) as [Hhd Hnb].
  simpl in *. destruct aliases as [|a rest]; simplify_eq/=.
  unfold scan_columns in *. rewrite (find_app_Some _ _ ext _ Hc).
  destruct c as [|x c]; simpl; [|done].
  apply find_some in Hc as [_ Hc%String.eqb_eq]. by destruct Hnb.
Qed.

End resolver.

(** ** The shotlist builder: rows *)

Section builder.

Lemma build_rows (scs : list scene) (columns : list string) :
  df_rows (build_shotlist_from_scenes scs columns) =
  flat_map
    (λ sc, scene_rows
             (make_row (uniq_from ∅ (resolve_columns columns).2)
                (resolve_columns columns).1 sc)
             1 (beats sc))
    scs.
Proof.
  unfold build_shotlist_from_scenes. by destruct (resolve_columns columns).
Qed.

Lemma build_columns (scs : list scene) (columns : list string) :
  df_columns (build_shotlist_from_scenes scs columns) =
  uniq_from ∅ (resolve_columns columns).2.
Proof.
  unfold build_shotlist_from_scenes. by destruct (resolve_columns columns).
Qed.

Lemma scene_rows_length (mk : Z → beat → gmap string cell) (k : Z)
    (bs : list beat) :
  length (scene_rows mk k bs) = length bs.
Proof. revert k. induction bs as [|b bs IH]; intros k; simpl; by rewrite ?IH. Qed.

Lemma scene_rows_lookup (mk : Z → beat → gmap string cell) (key : string)
    (k : Z) (bs : list beat) :
  (∀ n b, mk n b !! key = Some (CInt n)) →
  map (λ row : gmap string cell, row !! key) (scene_rows mk k bs) =
  map (λ n, Some (CInt n)) (seqZ k (Z.of_nat (length bs))).
Proof.
  intros Hmk. revert k. induction bs as [|b bs IH]; intros k; simpl; [done|].
  rewrite (seqZ_cons k) by lia. simpl. rewrite Hmk, IH.
  do 3 f_equal; lia.
Qed.

Lemma logical_field_elem (l : string) :
  bool_decide (l ∈ logical_fields) = true → l ∈ logical_fields.
Proof. apply bool_decide_eq_true_1. Qed.

Lemma resolved_ne (columns : list string) (l1 l2 : string) :
  bool_decide (l1 ∈ logical_fields) = true →
  bool_decide (l2 ∈ logical_fields) = true →
  l1 ≠ l2 → resolved columns l1 ≠ resolved columns l2.
Proof.
  intros H1%logical_field_elem H2%logical_field_elem Hne Heq.
  by apply Hne, (resolved_inj columns).
Qed.

(** The cell of [Shot #] is not overwritten by the fields set after it. *)
Lemma make_row_shot (uniq_cols columns : list string) (sc : scene)
    (n : Z) (b : beat) :
  make_row uniq_cols (resolve_columns columns).1 sc n b
    !! resolved columns "Shot #" = Some (CInt n).
Proof.
  unfold make_row. fold (resolved columns "Shot #").
  repeat match goal with
         | |- context [col (resolve_columns columns).1 ?f] =>
             change (col (resolve_columns columns).1 f)
               with (resolved columns f)
         end.
  do 7 (rewrite lookup_insert_ne by (by apply resolved_ne)).
  apply lookup_insert_eq.
Qed.

End builder.

(** ** The examples of the specification, evaluated *)

Example kitchen_lines :
  Py.splitlines kitchen
  = ["INT. KITCHEN - DAY"; "John walks in."; ""; "JOHN"; "Hello."].
Proof. reflexivity. Qed.

Example kitchen_scenes :
  map (λ sc, (signature sc, beats sc, elements (characters sc)))
    (parse_fountain_text kitchen)
  = [((1, "INT. KITCHEN - DAY"),
      [(Action, "John walks in."); (Dialogue, "JOHN: Hello.")],
      ["JOHN"])].
Proof. by vm_compute. Qed.

Example kitchen_rows :
  cells (build_shotlist_from_scenes (parse_fountain_text kitchen) [])
  = [[Some (CInt 1); Some (CStr "INT. KITCHEN - DAY");
      Some (CStr "[Action] John walks in."); Some (CInt 1); Some (CStr "MS");
      Some (CStr "Eye-level"); Some (CStr "Static"); Some (CStr "35mm");
      Some (CStr ""); Some (CStr "KITCHEN"); Some (CStr "JOHN");
      Some (CStr "")];
     [Some (CInt 1); Some (CStr "INT. KITCHEN - DAY");
      Some (CStr "[Dialogue] JOHN: Hello."); Some (CInt 2); Some (CStr "MS");
      Some (CStr "Eye-level"); Some (CStr "Static"); Some (CStr "35mm");
      Some (CStr ""); Some (CStr "KITCHEN"); Some (CStr "JOHN");
      Some (CStr "")]].
Proof. by vm_compute. Qed.

(** [CUT TO:] between two action lines is dropped and separates them. *)
Example cut_to_between_actions :
  map beats
    (parse_fountain_text
       (document ["EXT. PARK - NOON"; "He runs."; "CUT TO:"; "She waits."]))
  = [[(Action, "He runs."); (Action, "She waits.")]].
Proof. by vm_compute. Qed.

Example classifier_samples :
  map is_scene_heading ["INT. KITCHEN - DAY"; " ext park"; "I/E. CAR"; "INTERIOR"]
  = [true; true; true; false]
  ∧ map is_transition ["CUT TO:"; "DISSOLVE TO:"; "TO:"; "cut to:"]
    = [true; true; false; false]
  ∧ map is_character_cue ["JOHN"; "MARY (O.S.)"; "John"; "CUT TO:"; "1234"]
    = [true; true; false; false; false].
Proof. by vm_compute. Qed.

Example locations :
  map location ["INT. KITCHEN - DAY"; "EXT PARK-NOON"; "I/E. CAR - NIGHT"]
  = ["KITCHEN"; "PARK"; "CAR"].
Proof. by vm_compute. Qed.

(** ** The properties of the specification *)

(** C1. For every document text and every target schema, the builder
    produces, on the scenes of the parser, exactly as many rows as these
    scenes have beats in total. *)
Theorem rows_equal_beats (text : string) (columns : list string) :
  length (df_rows (build_shotlist_from_scenes (parse_fountain_text text) columns))
  = total_beats (parse_fountain_text text).
Proof.
  rewrite build_rows. unfold total_beats.
  induction (parse_fountain_text text) as [|sc scs IH]; simpl; [done|].
  by rewrite length_app, scene_rows_length, IH.
Qed.

(** C2. Listed in row order, the cells of the column resolved for [Shot #]
    are 1, 2, ..., up to the number of beats of the first scene, then again
    from 1 for the second scene, and so on: the number is 1 at the first beat
    of every scene and grows by one per beat, whatever the other scenes. *)
Theorem shot_numbers_restart (scs : list scene) (columns : list string) :
  map (λ row : gmap string cell, row !! resolved columns "Shot #")
    (df_rows (build_shotlist_from_scenes scs columns))
  = flat_map
      (λ sc, map (λ n, Some (CInt n)) (seqZ 1 (Z.of_nat (length (beats sc)))))
      scs.
Proof.
  rewrite build_rows.
  induction scs as [|sc scs IH]; simpl; [done|].
  rewrite map_app, IH. f_equal.
  apply scene_rows_lookup. intros n b. apply make_row_shot.
Qed.

(** C3. The heading [INT/EXT. KITCHEN - DAY] opens a scene, and the
    location derived from it is [/EXT. KITCHEN]: the alternative [INT] of
    the prefix pattern matches first and nothing after it forces the
    matcher to go back to [INT/EXT], so only [INT] is stripped. *)
Theorem location_int_ext :
  is_scene_heading "INT/EXT. KITCHEN - DAY" = true
  ∧ location "INT/EXT. KITCHEN - DAY" = "/EXT. KITCHEN"
  ∧ map (λ row : gmap string cell, row !! "Location")
      (df_rows (build_shotlist_from_scenes
                  (parse_fountain_text
                     (document ["INT/EXT. KITCHEN - DAY"; "John walks in."]))
                  []))
    = [Some (CStr "/EXT. KITCHEN")].
Proof. by vm_compute. Qed.

(** C4, as stated, fails: in the open scene [INT. ROOM] with the action
    line [He runs.] pending and nobody speaking, the line [TO:] flushes
    nothing and is buffered itself, and the document ends with the single
    action beat [He runs. TO: She waits.]. *)
Lemma bare_to_counterexample :
  step in_action "TO:" = PState [] (Some room) ["He runs."; "TO:"] None
  ∧ map beats
      (parse_fountain_text
         (document ["INT. ROOM"; "He runs."; "TO:"; "She waits."]))
    = [[(Action, "He runs. TO: She waits.")]].
Proof. by vm_compute. Qed.

(** C4, amended. In an open scene with no active speaker: a line whose
    trimmed content is exactly [TO:] is not a transition (the pattern wants
    at least one capital letter, space or tab before [TO:]); it is appended
    to the pending action buffer, which is not flushed, and [TO:] becomes
    part of the text of that buffer. A line that is a transition and not a
    scene heading flushes the pending action buffer and leaves no text. *)
Theorem bare_to_is_action (st : pstate) (sc : scene) (raw : string) :
  current_scene st = Some sc →
  Py.truthy_opt (current_character st) = false →
  (Py.strip (line_of raw) = "TO:" →
     is_transition (line_of raw) = false
     ∧ step st raw =
       PState (scenes st) (Some sc) (buffer_action st ++ [line_of raw])
         (current_character st)
     ∧ action_text (buffer_action st ++ [line_of raw]) =
       Py.join " "
         (map Py.strip
            (List.filter (λ l, Py.truthy (Py.strip l)) (buffer_action st))
          ++ ["TO:"]))
  ∧ (is_transition (line_of raw) = true →
     is_scene_heading (line_of raw) = false →
     step st raw =
     PState (scenes st)
       (Some (flush_action_as_beat sc (buffer_action st)).1) []
       (current_character st)).
Proof.
  intros Hsc Hcc. split.
  - intros Hto. split; [apply (bare_to_class _ Hto)|]. split.
    + by apply step_bare_to.
    + unfold action_text. rewrite List.filter_app, map_app. simpl.
      rewrite Hto. simpl. by rewrite Hto.
  - intros Ht Hh. by apply step_transition.
Qed.

Lemma bare_to_is_action_witness :
  step in_action "TO:" = PState [] (Some room) ["He runs."; "TO:"] None
  ∧ step in_action "CUT TO:" =
    PState [] (Some (flush_action_as_beat room ["He runs."]).1) [] None.
Proof.
  split.
  - apply (bare_to_is_action in_action room "TO:"); reflexivity.
  - apply (bare_to_is_action in_action room "CUT TO:"); reflexivity.
Defined.

(** C5, as stated, fails: with the target schema [Scene], [Scene #], which
    has a column for the alias [Scene] and one for the canonical name, the
    field [Scene #] is resolved to the canonical column. *)
Lemma canonical_last_counterexample :
  head possible_map
  = Some ("Scene #", ["Scene #"; "Scene"; "Scene No"; "Scene Number"])
  ∧ resolved ["Scene"; "Scene #"] "Scene #" = "Scene #"
  ∧ resolved ["Scene"; "Scene #"] "Scene #" ≠ "Scene".
Proof. by vm_compute. Qed.

(** C5, amended. The canonical name of a logical field is the first,
    highest-priority alias tried: when the target schema has a column equal
    to it after trimming and lower-casing, the first such column is the one
    resolved for the field, whatever columns for other aliases there are. *)
Theorem canonical_name_first (columns : list string) (logical c : string) :
  logical ∈ logical_fields →
  List.find (λ c, String.eqb (norm c) (norm logical)) columns = Some c →
  resolved columns logical = c.
Proof. apply resolved_canonical. Qed.

Lemma canonical_name_first_witness :
  resolved ["Shot"; " shot # "; "Shot #"] "Shot #" = " shot # ".
Proof.
  apply (canonical_name_first ["Shot"; " shot # "; "Shot #"] "Shot #").
  - apply logical_field_elem. reflexivity.
  - reflexivity.
Defined.

(** C6. For every target schema, two distinct logical fields of the catalog
    are never resolved to the same output column. *)
Theorem col_map_injective (columns : list string) (l1 l2 : string) :
  l1 ∈ logical_fields → l2 ∈ logical_fields → l1 ≠ l2 →
  resolved columns l1 ≠ resolved columns l2.
Proof. intros H1 H2 Hne Heq. by apply Hne, (resolved_inj columns). Qed.

Lemma col_map_injective_witness :
  resolved ["Type"; "Shot"; "Type"] "Shot #"
  ≠ resolved ["Type"; "Shot"; "Type"] "Shot Type".
Proof.
  apply (col_map_injective ["Type"; "Shot"; "Type"] "Shot #" "Shot Type").
  - apply logical_field_elem. reflexivity.
  - apply logical_field_elem. reflexivity.
  - discriminate.
Defined.

(** C7. For a document with N lines taken as scene headings, the parser
    returns N scenes, numbered 1..N, whose headings are these lines in
    document order; with no such line it returns no scene and the builder
    no row. *)
Theorem scene_numbers_sequential (text : string) :
  length (parse_fountain_text text) = length (heading_lines text)
  ∧ map scene_number (parse_fountain_text text)
    = seqZ 1 (Z.of_nat (length (heading_lines text)))
  ∧ map scene_heading (parse_fountain_text text)
    = map (λ raw, Py.strip (line_of raw)) (heading_lines text)
  ∧ (length (heading_lines text) = 0%nat →
     parse_fountain_text text = []
     ∧ ∀ columns,
         df_rows (build_shotlist_from_scenes (parse_fountain_text text) columns)
         = []).
Proof.
  pose proof (parse_signatures text) as Hsig.
  assert (length (parse_fountain_text text) = length (heading_lines text))
    as Hlen.
  { rewrite <- (length_map signature), Hsig.
    rewrite <- (length_map fst), number_from_fst, length_seqZ, length_map. lia. }
  split; [done|]. split; [|split].
  - by rewrite signature_fst, Hsig, number_from_fst, length_map.
  - by rewrite signature_snd, Hsig, number_from_snd.
  - intros Hz. rewrite Hz in Hlen.
    apply length_zero_iff_nil in Hlen. rewrite Hlen. split; [done|].
    intros columns. by rewrite build_rows.
Qed.

Lemma scene_numbers_sequential_witness :
  parse_fountain_text (document ["FADE IN:"; "A street."; ""; "JOHN"; "Hello."])
  = [].
Proof.
  apply (scene_numbers_sequential
           (document ["FADE IN:"; "A street."; ""; "JOHN"; "Hello."])).
  reflexivity.
Defined.

(** C8. Every beat of every scene returned by the parser has a text that
    is not empty after trimming; flushing a buffer whose lines are all
    blank after trimming adds no beat. *)
Theorem beats_never_blank (text : string) :
  Forall (λ sc, Forall (λ b : beat, Py.strip b.2 ≠ "") (beats sc))
    (parse_fountain_text text)
  ∧ ∀ sc buffer,
      Forall (λ l, Py.strip l = "") buffer →
      (flush_action_as_beat sc buffer).1 = sc.
Proof.
  split.
  - eapply Forall_impl; [apply parse_inked|]. intros sc Hsc.
    eapply Forall_impl; [apply Hsc|]. intros b Hb Hs.
    apply strip_blank in Hs. congruence.
  - intros sc [|l buffer] Hb; simpl; [done|].
    by rewrite (action_text_blank _ Hb).
Qed.

Lemma beats_never_blank_witness :
  (flush_action_as_beat room ["   "; ""]).1 = room.
Proof.
  apply (beats_never_blank "").
  repeat constructor.
Defined.

(** C9. With an empty target schema, the output columns are the twelve
    names of the catalog of logical fields, in catalog order. *)
Theorem empty_schema_columns (scs : list scene) :
  df_columns (build_shotlist_from_scenes scs [])
  = ["Scene #"; "Scene Heading"; "Beat/Action"; "Shot #"; "Shot Type";
     "Angle"; "Movement"; "Lens"; "Duration (s)"; "Location"; "Characters";
     "Notes"]
  ∧ df_columns (build_shotlist_from_scenes scs []) = logical_fields.
Proof. rewrite build_columns. by vm_compute. Qed.

(** C10, as stated, fails: while JOHN is speaking, the line [MARY] is not
    emitted as a dialogue beat of JOHN, it is a cue and makes MARY the
    speaker; and the line [INT. HALL] opens the next scene. *)
Lemma speaker_any_line_counterexample :
  (beats <$> current_scene (step in_dialogue "MARY"),
   current_character (step in_dialogue "MARY"))
  = (Some [], Some "MARY")
  ∧ map signature (all_scenes (step in_dialogue "INT. HALL"))
    = [(1, "INT. ROOM"); (2, "INT. HALL")]
  ∧ map beats (all_scenes (step in_dialogue "INT. HALL")) = [[]; []]
  ∧ map beats
      (parse_fountain_text
         (document ["INT. ROOM"; "JOHN"; "Hello."; "MARY"; "Hi."]))
    = [[(Dialogue, "JOHN: Hello."); (Dialogue, "MARY: Hi.")]].
Proof. by vm_compute. Qed.

(** C10, amended. When a speaker is active, any non-blank line that is
    neither a scene heading nor a character cue is emitted as the dialogue
    beat [character: line text]; so is a line that is a transition, such as
    [CUT TO:], and not a scene heading: the transition check is only reached
    when no speaker is active. *)
Theorem speaker_line_is_dialogue (st : pstate) (sc : scene) (ch raw : string) :
  current_scene st = Some sc →
  current_character st = Some ch →
  Py.truthy ch = true →
  is_scene_heading (line_of raw) = false →
  (Py.truthy (Py.strip (line_of raw)) = true →
     is_character_cue (line_of raw) = false →
     step st raw =
     PState (scenes st)
       (Some (append_beat sc
                (Dialogue, ch +:+ ": " +:+ Py.strip (line_of raw))))
       (buffer_action st) (Some ch))
  ∧ (is_transition (line_of raw) = true →
     step st raw =
     PState (scenes st)
       (Some (append_beat sc
                (Dialogue, ch +:+ ": " +:+ Py.strip (line_of raw))))
       (buffer_action st) (Some ch)).
Proof.
  intros Hsc Hcc Hch Hh. split.
  - intros Hnb Hq. by apply step_dialogue.
  - intros Ht. apply step_dialogue; try done.
    + by apply transition_not_cue.
    + by apply transition_nonblank.
Qed.

Lemma speaker_line_is_dialogue_witness :
  step in_dialogue "  Hello there. " =
  PState [] (Some (append_beat room (Dialogue, "JOHN: Hello there."))) []
    (Some "JOHN")
  ∧ step in_dialogue "CUT TO:" =
    PState [] (Some (append_beat room (Dialogue, "JOHN: CUT TO:"))) []
      (Some "JOHN").
Proof.
  split.
  - refine (proj1 (speaker_line_is_dialogue in_dialogue room "JOHN"
                     "  Hello there. " _ _ _ _) _ _); reflexivity.
  - refine (proj2 (speaker_line_is_dialogue in_dialogue room "JOHN"
                     "CUT TO:" _ _ _ _) _); reflexivity.
Defined.

(** ** The column resolver: each field on its own *)

Section resolver_exact.

Lemma find_app {A : Type} (f : A → bool) (l1 l2 : list A) :
  List.find f (l1 ++ l2) =
  match List.find f l1 with
  | Some x => Some x
  | None => List.find f l2
  end.
Proof. induction l1 as [|y l1 IH]; simpl; [done|]. by destruct (f y). Qed.

Lemma alias_owner (l : string) (aliases : list string) (a : string) :
  (l, aliases) ∈ possible_map → a ∈ aliases →
  field_of_norm (norm a) = Some l.
Proof.
  intros Hin Ha. pose proof possible_map_disjoint as Hd.
  rewrite Forall_forall in Hd. specialize (Hd _ Hin). simpl in Hd.
  rewrite Forall_forall in Hd. apply Hd. by right.
Qed.

Lemma name_owner (l : string) :
  l ∈ logical_fields → field_of_norm (norm l) = Some l.
Proof.
  intros [aliases Hin]%logical_field_entry. pose proof possible_map_disjoint as Hd.
  rewrite Forall_forall in Hd. specialize (Hd _ Hin). simpl in Hd.
  rewrite Forall_forall in Hd. apply Hd. by left.
Qed.

(** The canonical names of the other fields match no alias of a field. *)
Lemma scan_columns_names (cols ext : list string) (l : string)
    (aliases : list string) (a : string) :
  (l, aliases) ∈ possible_map → a ∈ aliases →
  Forall (λ x, x ∈ logical_fields ∧ x ≠ l) ext →
  scan_columns (cols ++ ext) a = scan_columns cols a.
Proof.
  intros Hin Ha Hext. unfold scan_columns. rewrite find_app.
  destruct (List.find _ cols); [done|].
  induction Hext as [|x ext [Hx Hne] _ IH]; simpl; [done|].
  destruct (String.eqb (norm x) (norm a)) eqn:Heq; [|done].
  apply String.eqb_eq in Heq. apply name_owner in Hx.
  rewrite Heq, (alias_owner l aliases a Hin Ha) in Hx. congruence.
Qed.

Lemma scan_aliases_names (cols ext : list string) (l : string)
    (aliases als : list string) (found : option string) :
  (l, aliases) ∈ possible_map → Forall (λ a, a ∈ aliases) als →
  Forall (λ x, x ∈ logical_fields ∧ x ≠ l) ext →
  scan_aliases (cols ++ ext) als found = scan_aliases cols als found.
Proof.
  intros Hin Hals Hext. revert found.
  induction Hals as [|a als Ha _ IH]; intros found; simpl; [done|].
  rewrite (scan_columns_names cols ext l aliases a Hin Ha Hext).
  destruct (Py.truthy_opt _); [done|]. apply IH.
Qed.

Lemma fold_lookup_exts (entries : list (string * list string))
    (cm : gmap string string) (cols : list string)
    (l : string) (aliases : list string) :
  NoDup entries.*1 → (l, aliases) ∈ entries →
  ∃ ext, Forall (λ x, x ∈ entries.*1 ∧ x ≠ l) ext
         ∧ (foldl resolve_field (cm, cols) entries).1 !! l =
           Some (default l (scan_aliases (cols ++ ext) aliases None)).
Proof.
  revert cm cols.
  induction entries as [|e entries IH]; intros cm cols Hnd Hin.
  { by apply elem_of_nil in Hin. }
  cbn [fmap list_fmap] in Hnd. apply NoDup_cons in Hnd as [Hfresh Hnd].
  apply elem_of_cons in Hin as [<-|Hin]; cbn [foldl].
  - exists []. split; [done|]. rewrite app_nil_r.
    destruct (resolve_field (cm, cols) (l, aliases)) as [cm' cols'] eqn:He.
    rewrite fold_lookup_notin by done.
    change cm' with (cm', cols').1. rewrite <- He.
    apply resolve_field_lookup.
  - assert (e.1 ≠ l) as Hne.
    { intros <-. apply Hfresh. apply list_elem_of_fmap. by exists (e.1, aliases). }
    assert (∃ ext0, (resolve_field (cm, cols) e).2 = cols ++ ext0
                    ∧ Forall (λ x, x = e.1) ext0) as (ext0 & Hext & H0).
    { destruct e as [l' als']. simpl.
      destruct (scan_aliases cols als' None); simpl.
      - exists []. by rewrite app_nil_r.
      - case_bool_decide; [exists []; by rewrite app_nil_r|].
        exists [l']. split; [done|]. by repeat constructor. }
    destruct (resolve_field (cm, cols) e) as [cm' cols'].
    simpl in Hext. subst cols'.
    destruct (IH cm' (cols ++ ext0) Hnd Hin) as (ext & Hext & Hl).
    exists (ext0 ++ ext). split; [|by rewrite app_assoc].
    apply Forall_app. split.
    + eapply Forall_impl; [apply H0|]. intros x ->. split; [by left | done].
    + eapply Forall_impl; [apply Hext|]. intros x [Hx ?].
      split; [by right | done].
Qed.

(** The column of a field is the result of scanning the target schema for
    its aliases, or its own name: what was appended for the fields before
    it plays no part. *)
Lemma resolved_exact (columns : list string) (l : string)
    (aliases : list string) :
  (l, aliases) ∈ possible_map →
  resolved columns l = default l (scan_aliases columns aliases None).
Proof.
  intros Hin. unfold resolved, resolve_columns, col.
  destruct (fold_lookup_exts possible_map ∅ columns l aliases
              possible_map_NoDup Hin) as (ext & Hext & Hl).
  rewrite (lookup_total_correct _ _ _ Hl).
  rewrite (scan_aliases_names columns ext l aliases aliases None Hin); [done|..].
  - by apply Forall_forall.
  - done.
Qed.

Lemma scan_aliases_found (cols als : list string) (x : string) :
  is_Some (scan_aliases cols als (Some x)).
Proof.
  revert x. induction als as [|a als IH]; intros x; simpl; [by eexists|].
  destruct (scan_columns cols a) as [c|]; simpl.
  - destruct (Py.truthy c); [by eexists | apply IH].
  - destruct (Py.truthy x); [by eexists | apply IH].
Qed.

Lemma scan_aliases_None (cols als : list string) :
  scan_aliases cols als None = None ↔
  Forall (λ a, scan_columns cols a = None) als.
Proof.
  induction als as [|a als IH]; simpl; [by split|].
  destruct (scan_columns cols a) as [c|] eqn:Hc; simpl.
  - split.
    + destruct (Py.truthy c); [done|].
      intros Hn. destruct (scan_aliases_found cols als c) as [y Hy]. congruence.
    + intros Hf. apply Forall_inv in Hf. congruence.
  - rewrite IH. split; [by constructor | by intros ?%Forall_inv_tail].
Qed.

Lemma scan_aliases_elem (cols als : list string) (found : option string)
    (m : string) :
  scan_aliases cols als found = Some m →
  found = Some m ∨ (m ∈ cols ∧ ∃ a, a ∈ als ∧ norm m = norm a).
Proof.
  revert found. induction als as [|a als IH]; intros found; simpl.
  { by left. }
  destruct (scan_columns cols a) as [c|] eqn:Hc.
  - apply scan_columns_spec in Hc as [Hin Hc].
    assert (c ∈ cols ∧ ∃ a0, a0 ∈ a :: als ∧ norm c = norm a0) as Hgood.
    { split; [done|]. exists a. split; [by left | done]. }
    destruct (Py.truthy_opt (Some c)).
    + intros [= <-]. by right.
    + intros [[= <-]|(Hm & b & Hb & Hn)]%IH; right; [done|].
      split; [done|]. exists b. split; [by right | done].
  - destruct (Py.truthy_opt found); [by left|].
    intros [?|(Hm & b & Hb & Hn)]%IH; [by left|]. right.
    split; [done|]. exists b. split; [by right | done].
Qed.

End resolver_exact.

(** ** The output columns *)

Section columns.

Lemma uniq_from_elem (seen : gset string) (l : list string) (x : string) :
  x ∈ uniq_from seen l ↔ x ∈ l ∧ x ∉ seen.
Proof.
  revert seen. induction l as [|c l IH]; intros seen; simpl.
  { rewrite elem_of_nil. naive_solver. }
  case_bool_decide as Hc.
  - rewrite IH, elem_of_cons. split; [naive_solver|].
    intros [[->|?] ?]; [done | naive_solver].
  - rewrite !elem_of_cons, IH. split.
    + intros [->|[? ?]]; [naive_solver|]. split; [naive_solver | set_solver].
    + intros [[->|?] ?]; [naive_solver|].
      destruct (decide (x = c)) as [->|]; [by left|]. right. set_solver.
Qed.

Lemma uniq_from_NoDup (seen : gset string) (l : list string) :
  NoDup (uniq_from seen l).
Proof.
  revert seen. induction l as [|c l IH]; intros seen; simpl; [constructor|].
  case_bool_decide; [apply IH|]. constructor; [|apply IH].
  rewrite uniq_from_elem. set_solver.
Qed.

Lemma uniq_from_app (seen : gset string) (l1 l2 : list string) :
  uniq_from seen (l1 ++ l2) =
  uniq_from seen l1 ++ uniq_from (list_to_set l1 ∪ seen) l2.
Proof.
  revert seen. induction l1 as [|c l1 IH]; intros seen; simpl.
  { by rewrite (left_id_L ∅ (∪)). }
  case_bool_decide as Hc; rewrite IH; simpl.
  - by replace ({[c]} ∪ list_to_set l1 ∪ seen) with (list_to_set l1 ∪ seen)
      by set_solver.
  - by replace ({[c]} ∪ list_to_set l1 ∪ seen)
      with (list_to_set l1 ∪ ({[c]} ∪ seen)) by set_solver.
Qed.

Lemma uniq_from_id (seen : gset string) (l : list string) :
  NoDup l → Forall (λ x, x ∉ seen) l → uniq_from seen l = l.
Proof.
  intros Hnd. revert seen. induction Hnd as [|c l Hc _ IH]; intros seen Hs.
  { done. }
  apply Forall_cons in Hs as [Hcs Hs]. simpl.
  rewrite bool_decide_eq_false_2 by done. f_equal. apply IH.
  rewrite Forall_forall in Hs |- *. intros x Hx. specialize (Hs x Hx).
  set_solver.
Qed.

Lemma fold_columns_ext (entries : list (string * list string))
    (cm : gmap string string) (cols : list string) :
  ∃ ext, (foldl resolve_field (cm, cols) entries).2 = cols ++ ext
         ∧ sublist ext entries.*1
         ∧ Forall (λ x, x ∉ cols) ext ∧ NoDup ext.
Proof.
  revert cm cols. induction entries as [|[l als] entries IH]; intros cm cols.
  { exists []. rewrite app_nil_r. repeat split; constructor. }
  cbn [foldl fmap list_fmap].
  assert (∃ cm', (resolve_field (cm, cols) (l, als) = (cm', cols))
                 ∨ ((l ∉ cols)
                    ∧ resolve_field (cm, cols) (l, als) = (cm', cols ++ [l])))
    as (cm' & [->|[Hl ->]]).
  { simpl. destruct (scan_aliases cols als None); [eauto|].
    case_bool_decide; eauto. }
  - destruct (IH cm' cols) as (ext & -> & Hsub & Hni & Hnd).
    exists ext. repeat split; try done. by apply sublist_cons.
  - destruct (IH cm' (cols ++ [l])) as (ext & -> & Hsub & Hni & Hnd).
    exists (l :: ext). rewrite <- app_assoc. repeat split; try done.
    + by apply sublist_skip.
    + constructor; [done|]. eapply Forall_impl; [apply Hni|].
      intros x Hx. set_solver.
    + constructor; [|done]. intros Hin. rewrite Forall_forall in Hni.
      apply (Hni l Hin). set_solver.
Qed.

(** Every value of [col_map] is one of the working columns. *)
Lemma fold_values_columns (entries : list (string * list string))
    (cm : gmap string string) (cols : list string) :
  (∀ l m, cm !! l = Some m → m ∈ cols) →
  ∀ l m, (foldl resolve_field (cm, cols) entries).1 !! l = Some m →
         m ∈ (foldl resolve_field (cm, cols) entries).2.
Proof.
  revert cm cols. induction entries as [|[l0 als] entries IH]; intros cm cols Hcm.
  { done. }
  cbn [foldl].
  destruct (resolve_field (cm, cols) (l0, als)) as [cm' cols'] eqn:He.
  apply IH. intros l m. simpl in He.
  destruct (scan_aliases cols als None) as [found|] eqn:Hs; simplify_eq.
  - rewrite lookup_insert. case_decide.
    + intros [= <-]. by apply scan_aliases_elem in Hs as [?|[? _]].
    + apply Hcm.
  - rewrite lookup_insert. case_decide.
    + intros [= <-]. case_bool_decide; set_solver.
    + intros Hm%Hcm. case_bool_decide; set_solver.
Qed.

Lemma build_columns_shape (scs : list scene) (columns : list string) :
  ∃ ext, df_columns (build_shotlist_from_scenes scs columns)
         = uniq_from ∅ columns ++ ext
         ∧ (resolve_columns columns).2 = columns ++ ext
         ∧ sublist ext logical_fields
         ∧ Forall (λ x, x ∉ columns) ext ∧ NoDup ext.
Proof.
  rewrite build_columns. unfold resolve_columns.
  destruct (fold_columns_ext possible_map ∅ columns)
    as (ext & -> & Hsub & Hni & Hnd).
  exists ext. rewrite uniq_from_app. repeat split; try done.
  f_equal. apply uniq_from_id; [done|].
  eapply Forall_impl; [apply Hni|]. intros x Hx. set_solver.
Qed.

Lemma resolved_in_columns (columns : list string) (l : string) :
  l ∈ logical_fields →
  resolved columns l ∈ uniq_from ∅ (resolve_columns columns).2.
Proof.
  intros [aliases Hin]%logical_field_entry.
  rewrite uniq_from_elem. split; [|set_solver].
  destruct (fold_lookup_spec possible_map ∅ columns l aliases
              possible_map_NoDup Hin) as [ext Hl].
  unfold resolved, col. rewrite (lookup_total_correct _ _ _ Hl).
  apply (fold_values_columns possible_map ∅ columns) with (l := l); [|done].
  intros l' m. by rewrite lookup_empty.
Qed.

End columns.

(** ** The rows, cell by cell *)

Section rows.

Lemma fill_lookup (v : cell) (l : list string) (m : gmap string cell)
    (c : string) :
  foldl (λ row c, <[c := v]> row) m l !! c =
  if bool_decide (c ∈ l) then Some v else m !! c.
Proof.
  revert m. induction l as [|x l IH]; intros m; simpl; [done|].
  rewrite IH. destruct (decide (c = x)) as [->|Hne].
  - rewrite (bool_decide_eq_true_2 (x ∈ x :: l)) by by left.
    rewrite lookup_insert_eq. by case_bool_decide.
  - rewrite lookup_insert_ne by done.
    case_bool_decide as Hl.
    + rewrite bool_decide_eq_true_2; [done | by right].
    + rewrite bool_decide_eq_false_2; [done|].
      by intros [?|?]%elem_of_cons.
Qed.

Lemma blank_row_lookup (uniq_cols : list string) (c : string) :
  blank_row uniq_cols !! c =
  if bool_decide (c ∈ uniq_cols) then Some (CStr "") else None.
Proof. unfold blank_row. by rewrite fill_lookup, lookup_empty. Qed.

Lemma blank_row_dom (uniq_cols : list string) :
  dom (blank_row uniq_cols) = list_to_set uniq_cols.
Proof.
  apply set_eq. intros c. rewrite elem_of_dom, blank_row_lookup.
  rewrite elem_of_list_to_set.
  case_bool_decide; split; first [done | by eexists | by intros [? ?]].
Qed.

Lemma scene_rows_map {A : Type} (g : gmap string cell → A) (h : beat → A)
    (mk : Z → beat → gmap string cell) (k : Z) (bs : list beat) :
  (∀ n b, g (mk n b) = h b) → map g (scene_rows mk k bs) = map h bs.
Proof.
  intros Hg. revert k. induction bs as [|b bs IH]; intros k; simpl; [done|].
  by rewrite Hg, IH.
Qed.

Lemma scene_rows_Forall (P : gmap string cell → Prop)
    (mk : Z → beat → gmap string cell) (k : Z) (bs : list beat) :
  (∀ n b, P (mk n b)) → Forall P (scene_rows mk k bs).
Proof.
  intros HP. revert k. induction bs as [|b bs IH]; intros k; simpl;
    by constructor.
Qed.

Lemma build_rows_Forall (P : gmap string cell → Prop) (scs : list scene)
    (columns : list string) :
  (∀ sc n b,
     P (make_row (uniq_from ∅ (resolve_columns columns).2)
          (resolve_columns columns).1 sc n b)) →
  Forall P (df_rows (build_shotlist_from_scenes scs columns)).
Proof.
  intros HP. rewrite build_rows.
  induction scs as [|sc scs IH]; simpl; [constructor|].
  apply Forall_app. split; [|done]. apply scene_rows_Forall. intros n b. apply HP.
Qed.

Lemma build_rows_map {A : Type} (g : gmap string cell → A)
    (h : scene → beat → A) (scs : list scene) (columns : list string) :
  (∀ sc n b,
     g (make_row (uniq_from ∅ (resolve_columns columns).2)
          (resolve_columns columns).1 sc n b) = h sc b) →
  map g (df_rows (build_shotlist_from_scenes scs columns)) =
  flat_map (λ sc, map (h sc) (beats sc)) scs.
Proof.
  intros Hg. rewrite build_rows.
  induction scs as [|sc scs IH]; simpl; [done|].
  rewrite map_app, IH. f_equal. apply scene_rows_map. intros n b. apply Hg.
Qed.

(** The cell of a row at the column of a logical field: the last value
    assigned there, since the columns of distinct fields differ. *)
Ltac row_cell columns :=
  unfold make_row;
  repeat match goal with
         | |- context [col (resolve_columns columns).1 ?f] =>
             change (col (resolve_columns columns).1 f)
               with (resolved columns f)
         end;
  repeat (rewrite lookup_insert_ne by (by apply resolved_ne));
  try apply lookup_insert_eq.

Lemma make_row_cells (columns : list string) (sc : scene) (n : Z) (b : beat) :
  let row := make_row (uniq_from ∅ (resolve_columns columns).2)
               (resolve_columns columns).1 sc n b in
  row !! resolved columns "Scene #" = Some (CInt (scene_number sc))
  ∧ row !! resolved columns "Scene Heading" = Some (CStr (scene_heading sc))
  ∧ row !! resolved columns "Beat/Action" = Some (beat_cell b)
  ∧ row !! resolved columns "Shot #" = Some (CInt n)
  ∧ row !! resolved columns "Shot Type" = Some (CStr "MS")
  ∧ row !! resolved columns "Angle" = Some (CStr "Eye-level")
  ∧ row !! resolved columns "Movement" = Some (CStr "Static")
  ∧ row !! resolved columns "Lens" = Some (CStr "35mm")
  ∧ row !! resolved columns "Location"
    = Some (CStr (location (scene_heading sc)))
  ∧ row !! resolved columns "Characters" = Some (CStr (char_list sc))
  ∧ row !! resolved columns "Notes" = Some (CStr "").
Proof. cbv zeta. repeat split; by row_cell columns. Qed.

(** A column that no assigned field is resolved to keeps the empty string
    of the fresh row. *)
Lemma make_row_untouched (columns : list string) (sc : scene) (n : Z)
    (b : beat) (c : string) :
  c ∈ uniq_from ∅ (resolve_columns columns).2 →
  Forall (λ l, c ≠ resolved columns l) assigned_fields →
  make_row (uniq_from ∅ (resolve_columns columns).2)
    (resolve_columns columns).1 sc n b !! c = Some (CStr "").
Proof.
  intros Hc Hne. unfold make_row.
  repeat match goal with
         | |- context [col (resolve_columns columns).1 ?f] =>
             change (col (resolve_columns columns).1 f)
               with (resolved columns f)
         end.
  unfold assigned_fields in Hne.
  repeat (apply Forall_cons in Hne as [? Hne]).
  do 11 (rewrite lookup_insert_ne by done).
  rewrite blank_row_lookup. by rewrite bool_decide_eq_true_2.
Qed.

Lemma dom_insert_in (m : gmap string cell) (X : gset string) (k : string)
    (v : cell) :
  k ∈ X → dom m = X → dom (<[k := v]> m) = X.
Proof. intros Hk <-. rewrite dom_insert_L. set_solver. Qed.

Lemma assigned_fields_logical :
  Forall (λ l, l ∈ logical_fields ∧ l ≠ "Duration (s)") assigned_fields.
Proof. apply (bool_decide_unpack _). by vm_compute. Qed.

Lemma make_row_dom (columns : list string) (sc : scene) (n : Z) (b : beat) :
  dom (make_row (uniq_from ∅ (resolve_columns columns).2)
         (resolve_columns columns).1 sc n b)
  = list_to_set (uniq_from ∅ (resolve_columns columns).2).
Proof.
  unfold make_row.
  repeat match goal with
         | |- context [col (resolve_columns columns).1 ?f] =>
             change (col (resolve_columns columns).1 f)
               with (resolved columns f)
         end.
  assert (∀ l, bool_decide (l ∈ logical_fields) = true →
               resolved columns l
               ∈@{gset string} list_to_set (uniq_from ∅ (resolve_columns columns).2))
    as Hin.
  { intros l Hl%logical_field_elem. apply elem_of_list_to_set.
    by apply resolved_in_columns. }
  do 11 (apply dom_insert_in; [by apply Hin|]).
  apply blank_row_dom.
Qed.

End rows.

(** ** Resolving against the output columns *)

Section fixed_point.

Lemma find_uniq_from (f : string → bool) (seen : gset string)
    (l : list string) :
  (∀ x, x ∈ seen → f x = false) →
  List.find f (uniq_from seen l) = List.find f l.
Proof.
  revert seen. induction l as [|c l IH]; intros seen Hseen; simpl; [done|].
  case_bool_decide as Hc.
  - rewrite (Hseen c Hc). by apply IH.
  - simpl. destruct (f c) eqn:Hf; [done|]. apply IH.
    intros x [->%elem_of_singleton|?]%elem_of_union; [done | by apply Hseen].
Qed.

Lemma scan_aliases_uniq (cols als : list string) (found : option string) :
  scan_aliases (uniq_from ∅ cols) als found = scan_aliases cols als found.
Proof.
  revert found. induction als as [|a als IH]; intros found; simpl; [done|].
  unfold scan_columns. rewrite find_uniq_from by set_solver.
  destruct (Py.truthy_opt _); [done | apply IH].
Qed.

(** The names appended to the working columns are resolved to themselves. *)
Lemma fold_appended_self (entries : list (string * list string))
    (cm : gmap string string) (cols ext : list string) :
  NoDup entries.*1 →
  (foldl resolve_field (cm, cols) entries).2 = cols ++ ext →
  Forall (λ x, (foldl resolve_field (cm, cols) entries).1 !! x = Some x) ext.
Proof.
  revert cm cols ext.
  induction entries as [|[l als] entries IH]; intros cm cols ext Hnd Hext.
  { simpl in Hext. rewrite <- (app_nil_r cols) in Hext at 1.
    apply app_inv_head in Hext as <-. constructor. }
  cbn [fmap list_fmap] in Hnd. apply NoDup_cons in Hnd as [Hfresh Hnd].
  cbn [foldl] in *.
  destruct (resolve_field (cm, cols) (l, als)) as [cm' cols'] eqn:He.
  destruct (fold_columns_ext entries cm' cols') as (ext1 & Hext1 & _).
  simpl in He. destruct (scan_aliases cols als None) as [found|] eqn:Hs;
    simplify_eq.
  - by apply IH.
  - case_bool_decide as Hl; [by apply IH|].
    rewrite Hext1, <- app_assoc in Hext. apply app_inv_head in Hext as <-.
    constructor; [|by apply IH].
    rewrite fold_lookup_notin by done. apply lookup_insert_eq.
Qed.

Lemma appended_self (columns ext : list string) :
  (resolve_columns columns).2 = columns ++ ext →
  Forall (λ x, resolved columns x = x) ext.
Proof.
  intros Hext.
  pose proof (fold_appended_self possible_map ∅ columns ext
                possible_map_NoDup Hext) as Hf.
  eapply Forall_impl; [apply Hf|]. intros x Hx.
  by apply lookup_total_correct.
Qed.

Lemma find_unique {A : Type} (f : A → bool) (l : list A) (x : A) :
  x ∈ l → f x = true → (∀ y, y ∈ l → f y = true → y = x) →
  List.find f l = Some x.
Proof.
  intros Hx Hfx Huniq. induction l as [|y l IH]; [by apply elem_of_nil in Hx|].
  simpl. destruct (f y) eqn:Hfy.
  - f_equal. apply Huniq; [by left | done].
  - apply IH.
    + apply elem_of_cons in Hx as [->|?]; [congruence | done].
    + intros z Hz. apply Huniq. by right.
Qed.

Lemma logical_name_truthy (l : string) :
  l ∈ logical_fields → Py.truthy l = true.
Proof.
  intros [aliases Hin]%logical_field_entry. pose proof possible_map_heads as Hh.
  rewrite Forall_forall in Hh. destruct (Hh _ Hin) as [_ Hnb]. simpl in Hnb.
  by destruct l.
Qed.

Lemma resolved_output (columns ext : list string) (l : string) :
  (resolve_columns columns).2 = columns ++ ext →
  sublist ext logical_fields →
  Forall (λ x, x ∉ columns) ext →
  l ∈ logical_fields →
  resolved (uniq_from ∅ columns ++ ext) l = resolved columns l.
Proof.
  intros Hext Hsub Hni Hl.
  destruct (logical_field_entry l Hl) as [aliases Hin].
  assert (Forall (λ x, x ∈ logical_fields) ext) as Hfields.
  { apply Forall_forall. intros x Hx. by eapply elem_of_sublist. }
  rewrite !(resolved_exact _ l aliases Hin).
  destruct (decide (l ∈ ext)) as [Hle|Hle].
  - (* [l] was appended: it is found by its own name, the first alias *)
    pose proof (appended_self columns ext Hext) as Hself.
    rewrite Forall_forall in Hself, Hni. specialize (Hself l Hle).
    rewrite (resolved_exact _ l aliases Hin) in Hself.
    assert (scan_aliases columns aliases None = None) as Hnone.
    { destruct (scan_aliases columns aliases None) as [m|] eqn:Hm; [|done].
      simpl in Hself. subst m.
      apply scan_aliases_elem in Hm as [?|[Hm _]]; [done|].
      by destruct (Hni l Hle). }
    rewrite Hnone. simpl.
    pose proof possible_map_heads as Hh.
    rewrite Forall_forall in Hh. destruct (Hh _ Hin) as [Hhd _]. simpl in Hhd.
    apply scan_aliases_None in Hnone.
    destruct aliases as [|a rest]; simplify_eq/=.
    apply Forall_inv in Hnone.
    assert (scan_columns (uniq_from ∅ columns ++ ext) l = Some l) as ->.
    { unfold scan_columns in *. rewrite find_app.
      rewrite find_uniq_from by set_solver. rewrite Hnone.
      apply find_unique; [done | by apply String.eqb_eq|].
      intros y Hy Hn%String.eqb_eq.
      rewrite Forall_forall in Hfields.
      pose proof (name_owner y (Hfields y Hy)) as Ey.
      rewrite Hn, (name_owner l Hl) in Ey. congruence. }
    simpl. by rewrite (logical_name_truthy l Hl).
  - rewrite (scan_aliases_names _ ext l aliases aliases None Hin).
    + by rewrite scan_aliases_uniq.
    + by apply Forall_forall.
    + apply Forall_forall. intros x Hx. rewrite Forall_forall in Hfields.
      split; [by apply Hfields | by intros ->].
Qed.

End fixed_point.

(** ** Lines *)

Section splitting.

Lemma splitlines_from_one_line (after_cr : bool) (s : string) :
  Forall (λ l, one_line l = true) (Py.splitlines_from after_cr s).
Proof.
  revert after_cr. induction s as [|c s IH]; intros after_cr; simpl.
  { constructor. }
  destruct (after_cr && _); [apply IH|].
  destruct (Py.is_linebreak c) eqn:Hc.
  - constructor; [done | apply IH].
  - specialize (IH false). destruct (Py.splitlines_from false s) as [|l ls].
    + repeat constructor. unfold one_line. simpl. by rewrite Hc.
    + apply Forall_cons in IH as [Hl Hls]. constructor; [|done].
      unfold one_line in *. simpl. by rewrite Hc.
Qed.

Lemma rstrip_char_id (x : ascii) (s : string) :
  all_chars (λ c, negb (Ascii.eqb c x)) s = true → Py.rstrip_char x s = s.
Proof.
  induction s as [|c s IH]; simpl; [done|].
  intros [Hc Hs]%andb_true_iff. rewrite (IH Hs).
  destruct s; [|done]. by destruct (Ascii.eqb c x).
Qed.

Lemma one_line_no_newline (s : string) :
  one_line s = true →
  all_chars (λ c, negb (Ascii.eqb c "010"%char)) s = true.
Proof.
  unfold one_line. induction s as [|c s IH]; simpl; [done|].
  intros [Hc Hs]%andb_true_iff. rewrite (IH Hs), andb_true_r.
  destruct (Ascii.eqb_spec c "010"%char) as [->|]; [done | done].
Qed.

Lemma splitlines_line_of (text : string) :
  Forall (λ raw, line_of raw = raw) (Py.splitlines text).
Proof.
  eapply Forall_impl; [apply (splitlines_from_one_line false)|].
  intros raw Hraw. by apply rstrip_char_id, one_line_no_newline.
Qed.

Lemma splitlines_app_LF (l rest : string) :
  one_line l = true →
  Py.splitlines_from false (l +:+ LF +:+ rest)
  = l :: Py.splitlines_from false rest.
Proof.
  unfold one_line. induction l as [|c l IH]; simpl; [done|].
  intros [Hc Hl]%andb_true_iff. apply negb_true_iff in Hc.
  change (String c l +:+ LF +:+ rest) with (String c (l +:+ LF +:+ rest)).
  simpl. by rewrite Hc, (IH Hl).
Qed.

Lemma splitlines_single (l : string) :
  one_line l = true → l ≠ "" → Py.splitlines_from false l = [l].
Proof.
  unfold one_line. induction l as [|c l IH]; simpl; [done|].
  intros [Hc Hl]%andb_true_iff _. apply negb_true_iff in Hc. rewrite Hc.
  destruct l as [|c' l]; [done|]. by rewrite (IH Hl).
Qed.

Lemma splitlines_document (ls : list string) :
  Forall (λ l, one_line l = true) ls → last ls ≠ Some "" →
  Py.splitlines (document ls) = ls.
Proof.
  unfold Py.splitlines, document.
  induction ls as [|l [|l' ls] IH]; intros Hls Hlast; [done|..].
  - apply Forall_inv in Hls. simpl in *.
    apply splitlines_single; [done | congruence].
  - apply Forall_cons in Hls as [Hl Hls].
    change (Py.join LF (l :: l' :: ls))
      with (l +:+ LF +:+ Py.join LF (l' :: ls)).
    rewrite splitlines_app_LF by done. f_equal. by apply IH.
Qed.

End splitting.

(** ** The line classifier *)

Section classifier.

Lemma heading_idemp (line : string) :
  is_scene_heading (Py.strip line) = is_scene_heading line.
Proof. unfold is_scene_heading. by rewrite strip_idemp. Qed.

Lemma cue_idemp (line : string) :
  is_character_cue (Py.strip line) = is_character_cue line.
Proof. unfold is_character_cue. by rewrite strip_idemp. Qed.

Lemma count_nonneg (p : ascii → bool) (s : string) : 0 ≤ Py.count p s.
Proof. induction s as [|c s IH]; simpl; [done|]. destruct (p c); lia. Qed.

Lemma cue_facts (line : string) :
  is_character_cue line = true →
  is_scene_heading line = false ∧ is_transition line = false
  ∧ Py.strip line ≠ "" ∧ Py.len (Py.strip line) ≤ 60
  ∧ 0 < Py.count Py.isalpha (Py.strip line)
  ∧ 4 * Py.count Py.isalpha (Py.strip line)
    < 5 * Py.count Py.isupper (Py.strip line).
Proof.
  unfold is_character_cue. rewrite heading_idemp, transition_idemp.
  destruct (Py.truthy (Py.strip line)) eqn:Ht; simpl; [|done].
  destruct (60 <? Py.len (Py.strip line)) eqn:Hlen; [done|].
  destruct (is_scene_heading line); [done|].
  destruct (is_transition line); [done|]. simpl.
  destruct (Py.count Py.isalpha (Py.strip line) =? 0) eqn:Ha; [done|].
  intros [Hr _]%andb_true_iff.
  apply truthy_true in Ht. apply Z.ltb_ge in Hlen. apply Z.eqb_neq in Ha.
  apply Z.ltb_lt in Hr.
  pose proof (count_nonneg Py.isalpha (Py.strip line)).
  split_and!; first [done | lia].
Qed.

End classifier.

(** ** Trimmed strings *)

Section trimming.

Lemma string_app_cons (c : ascii) (s t : string) :
  String c s +:+ t = String c (s +:+ t).
Proof. done. Qed.

Lemma trimmed_strip (s : string) :
  Py.truthy (Py.strip s) = true → trimmed (Py.strip s).
Proof. intros Ht%truthy_true. split; [apply strip_idemp | done]. Qed.

Lemma trimmed_head (s : string) :
  trimmed s → ∃ c r, s = String c r ∧ Py.isspace c = false.
Proof.
  intros [Hs Hne]. unfold Py.strip in Hs.
  destruct (lstrip_head s) as [Hl|(c & r & Hl & Hc)]; rewrite Hl in Hs.
  - by destruct Hne.
  - destruct (rstrip_head c r Hc) as [r' Hr]. rewrite Hr in Hs. eauto.
Qed.

Lemma trimmed_rstrip (s : string) : trimmed s → Py.rstrip s = s.
Proof.
  intros Hs. destruct (trimmed_head s Hs) as (c & r & -> & Hc).
  destruct Hs as [Hs _]. unfold Py.strip in Hs.
  by rewrite (lstrip_fixed c r Hc) in Hs.
Qed.

Lemma rstrip_app (x t : string) :
  Py.rstrip t = t → t ≠ "" → Py.rstrip (x +:+ t) = x +:+ t.
Proof.
  intros Ht Hne. induction x as [|c x IH]; [done|].
  rewrite string_app_cons. simpl. rewrite IH.
  destruct (x +:+ t) eqn:Hx; [|done]. by destruct x, t.
Qed.

Lemma app_nonempty_r (x t : string) : t ≠ "" → x +:+ t ≠ "".
Proof. intros Hne. by destruct x, t. Qed.

Lemma trimmed_app (a m b : string) :
  trimmed a → trimmed b → trimmed (a +:+ m +:+ b).
Proof.
  intros Ha Hb. destruct (trimmed_head a Ha) as (c & r & -> & Hc).
  pose proof (trimmed_rstrip b Hb) as Hrb. destruct Hb as [_ Hnb].
  split; [|done]. unfold Py.strip.
  rewrite string_app_cons, (lstrip_fixed c _ Hc), <- string_app_cons.
  apply rstrip_app.
  - by apply rstrip_app.
  - by apply app_nonempty_r.
Qed.

Lemma join_trimmed (sep : string) (l : list string) :
  Forall trimmed l → l ≠ [] → trimmed (Py.join sep l).
Proof.
  induction l as [|x [|y l] IH]; intros Hl Hne; [done|..].
  - by apply Forall_inv in Hl.
  - apply Forall_cons in Hl as [Hx Hl].
    change (Py.join sep (x :: y :: l))
      with (x +:+ sep +:+ Py.join sep (y :: l)).
    apply trimmed_app; [done|]. by apply IH.
Qed.

Lemma action_text_trimmed (buf : list string) :
  Py.truthy (action_text buf) = true → trimmed (action_text buf).
Proof.
  unfold action_text. intros Ht. apply join_trimmed.
  - apply Forall_map, Forall_forall.
    intros l [_ Hl]%list_elem_of_In%filter_In. by apply trimmed_strip.
  - intros Hnil. by rewrite Hnil in Ht.
Qed.

End trimming.

(** ** The parser: well-formed scenes *)

Section well_formed.

Lemma well_formed_beat_mono (chars chars' : gset string) (b : beat) :
  chars ⊆ chars' → well_formed_beat chars b → well_formed_beat chars' b.
Proof.
  intros Hsub. unfold well_formed_beat. destruct b.1; [done|].
  intros (ch & txt & ? & ? & ?). exists ch, txt. split_and!; [done| |done].
  by apply Hsub.
Qed.

Lemma flush_well_formed (sc : scene) (buf : list string) :
  well_formed_scene sc → well_formed_scene (flush_action_as_beat sc buf).1.
Proof.
  intros [Hch Hb]. destruct buf as [|l buf]; simpl; [done|].
  destruct (Py.truthy _) eqn:Ht; [|done]. split; [done|]. simpl.
  apply Forall_app. split; [done|]. constructor; [|done].
  by apply action_text_trimmed.
Qed.

Lemma flush_characters (sc : scene) (buf : list string) :
  characters (flush_action_as_beat sc buf).1 = characters sc.
Proof. destruct buf; simpl; [done|]. by destruct (Py.truthy _). Qed.

Lemma add_character_well_formed (sc : scene) (line : string) :
  is_character_cue line = true → well_formed_scene sc →
  well_formed_scene (add_character sc (Py.strip line)).
Proof.
  intros Hq [Hch Hb]. split; simpl.
  - intros ch [->%elem_of_singleton|?]%elem_of_union; [|by apply Hch].
    rewrite cue_idemp. split; [done|]. apply trimmed_strip.
    apply truthy_true. by apply cue_facts.
  - eapply Forall_impl; [apply Hb|]. intros b.
    apply well_formed_beat_mono. set_solver.
Qed.

Lemma fresh_scene_well_formed (n : Z) (heading : string) :
  well_formed_scene (Scene n heading [] ∅).
Proof. split; simpl; [|constructor]. intros ch. set_solver. Qed.

Lemma step_well_formed (st : pstate) (raw : string) :
  well_formed_state st → well_formed_state (step st raw).
Proof.
  unfold well_formed_state, all_scenes, step.
  intros [[Hs Hc]%Forall_app Hcc].
  destruct (is_scene_heading _); simpl.
  { split; [|done]. apply Forall_app. split.
    - destruct (current_scene st) as [sc|]; simpl in *; [|done].
      apply Forall_app. split; [done|]. apply Forall_singleton.
      apply flush_well_formed. by apply Forall_inv in Hc.
    - apply Forall_singleton, fresh_scene_well_formed. }
  destruct (current_scene st) as [sc|] eqn:Hsc; simpl in *.
  2:{ rewrite Hsc. split; [|done]. apply Forall_app. by split. }
  apply Forall_inv in Hc.
  pose proof (flush_well_formed sc (buffer_action st) Hc) as Hf.
  pose proof (flush_characters sc (buffer_action st)) as Hfc.
  destruct (flush_action_as_beat sc (buffer_action st)) as [sc' buf'].
  simpl in Hf, Hfc.
  destruct (negb _); simpl.
  { split; [|done]. apply Forall_app. split; [done|]. by apply Forall_singleton. }
  destruct (is_character_cue _) eqn:Hq; simpl.
  { split.
    - apply Forall_app. split; [done|]. apply Forall_singleton.
      by apply add_character_well_formed.
    - intros ch [= <-]. eexists. split; [done|]. simpl. set_solver. }
  destruct (Py.truthy_opt (current_character st)) eqn:Hsp; simpl.
  { split.
    - apply Forall_app. split; [done|]. apply Forall_singleton.
      destruct (Py.truthy (Py.strip _)) eqn:Ht; [|done].
      destruct Hc as [Hch Hb]. split; [done|]. simpl.
      apply Forall_app. split; [done|]. apply Forall_singleton.
      destruct (current_character st) as [ch|] eqn:Hch'; [|done].
      destruct (Hcc ch eq_refl) as (sc0 & [= <-] & Hin).
      exists ch, (Py.strip (Py.rstrip_char "010" raw)). simpl.
      split_and!; [done | done |]. by apply trimmed_strip.
    - intros ch Hch. destruct (Hcc ch Hch) as (sc0 & [= <-] & Hin).
      destruct (Py.truthy _); eauto. }
  destruct (is_transition _); simpl.
  - split.
    + apply Forall_app. split; [done|]. by apply Forall_singleton.
    + intros ch Hch. destruct (Hcc ch Hch) as (sc0 & [= <-] & Hin).
      eexists. split; [done|]. by rewrite Hfc.
  - split.
    + apply Forall_app. split; [done|]. by apply Forall_singleton.
    + intros ch Hch. destruct (Hcc ch Hch) as (sc0 & [= <-] & Hin). eauto.
Qed.

Lemma parse_lines_well_formed (ls : list string) :
  Forall well_formed_scene (parse_lines ls).
Proof.
  unfold parse_lines.
  assert (well_formed_state (foldl step initial ls)) as [[Hs Hc]%Forall_app _].
  { apply (foldl_preserves well_formed_state); [|apply step_well_formed].
    split; [constructor | done]. }
  unfold finish. destruct (current_scene _) as [sc|]; simpl in *; [|done].
  apply Forall_app. split; [done|]. apply Forall_singleton.
  apply flush_well_formed. by apply Forall_inv in Hc.
Qed.

End well_formed.

(** ** The parser: scene by scene *)

Section composition.

Lemma foldl_step_app (st : pstate) (ls1 ls2 : list string) :
  foldl step st (ls1 ++ ls2) = foldl step (foldl step st ls1) ls2.
Proof. apply foldl_app. Qed.

Lemma step_before_scene (st : pstate) (raw : string) :
  current_scene st = None → is_scene_heading (line_of raw) = false →
  step st raw = st.
Proof. intros Hsc Hh. unfold step. fold (line_of raw). by rewrite Hh, Hsc. Qed.

Lemma foldl_before_scene (pre : list string) :
  Forall (λ raw, is_scene_heading (line_of raw) = false) pre →
  foldl step initial pre = initial.
Proof.
  induction 1 as [|raw pre Hraw _ IH]; simpl; [done|].
  by rewrite step_before_scene.
Qed.

(** A heading line closes what is open and starts afresh. *)
Lemma step_heading (st : pstate) (raw : string) :
  is_scene_heading (line_of raw) = true →
  step st raw =
  PState (finish st)
    (Some (Scene (Z.of_nat (length (finish st)) + 1)
             (Py.strip (line_of raw)) [] ∅))
    [] None.
Proof. intros Hh. unfold step, finish. fold (line_of raw). by rewrite Hh. Qed.

Lemma flush_renumber (k : nat) (sc : scene) (buf : list string) :
  (flush_action_as_beat (renumber k sc) buf).1
  = renumber k (flush_action_as_beat sc buf).1.
Proof. destruct buf; simpl; [done|]. by destruct (Py.truthy _). Qed.

Lemma finish_shift (pre : list scene) (st : pstate) :
  finish (shift_state pre st) = pre ++ map (renumber (length pre)) (finish st).
Proof.
  unfold finish, shift_state. simpl.
  destruct (current_scene st) as [sc|]; simpl; [|done].
  by rewrite map_app, app_assoc, flush_renumber.
Qed.

Lemma step_shift (pre : list scene) (st : pstate) (raw : string) :
  step (shift_state pre st) raw = shift_state pre (step st raw).
Proof.
  destruct (is_scene_heading (line_of raw)) eqn:Hh.
  - rewrite !step_heading by done. rewrite finish_shift.
    unfold shift_state. simpl. f_equal. f_equal. unfold renumber. simpl.
    f_equal. rewrite length_app, length_map. lia.
  - unfold step. fold (line_of raw). rewrite Hh. unfold shift_state at 1. simpl.
    destruct (current_scene st) as [sc|] eqn:Hsc; simpl.
    2:{ unfold shift_state. by rewrite Hsc. }
    pose proof (flush_renumber (length pre) sc (buffer_action st)) as Hf.
    pose proof (flush_buffer (renumber (length pre) sc) (buffer_action st)) as Hb1.
    pose proof (flush_buffer sc (buffer_action st)) as Hb2.
    destruct (flush_action_as_beat (renumber (length pre) sc) (buffer_action st))
      as [sc1 buf1].
    destruct (flush_action_as_beat sc (buffer_action st)) as [sc2 buf2].
    simpl in *. subst.
    repeat case_match; done.
Qed.

Lemma foldl_shift (pre : list scene) (ls : list string) (st : pstate) :
  foldl step (shift_state pre st) ls = shift_state pre (foldl step st ls).
Proof.
  revert st. induction ls as [|raw ls IH]; intros st; simpl; [done|].
  by rewrite step_shift, IH.
Qed.

Lemma parse_lines_heading (ls1 ls2 : list string) (h : string) :
  is_scene_heading (line_of h) = true →
  parse_lines (ls1 ++ h :: ls2)
  = parse_lines ls1
    ++ map (renumber (length (parse_lines ls1))) (parse_lines (h :: ls2)).
Proof.
  intros Hh. unfold parse_lines. rewrite foldl_step_app. simpl.
  set (st1 := foldl step initial ls1).
  assert (step st1 h = shift_state (finish st1) (step initial h)) as ->.
  { rewrite !step_heading by done. unfold shift_state, renumber. simpl.
    rewrite app_nil_r. do 3 f_equal. lia. }
  by rewrite foldl_shift, finish_shift.
Qed.

End composition.

(** ** The parser: beats and lines *)

Section counting.

Lemma total_beats_app (l1 l2 : list scene) :
  total_beats (l1 ++ l2) = (total_beats l1 + total_beats l2)%nat.
Proof. unfold total_beats. by rewrite map_app, sum_list_with_app. Qed.

Lemma flush_beats_length (sc : scene) (buf : list string) :
  (length (beats (flush_action_as_beat sc buf).1)
   ≤ length (beats sc) + match buf with [] => 0 | _ :: _ => 1 end)%nat.
Proof.
  destruct buf as [|l buf]; simpl; [lia|].
  destruct (Py.truthy _); simpl; rewrite ?length_app; simpl; lia.
Qed.

Lemma finish_weight (st : pstate) :
  (total_beats (finish st) + length (finish st) ≤ weight st)%nat.
Proof.
  unfold weight, finish, all_scenes.
  destruct (current_scene st) as [sc|]; simpl.
  - rewrite !total_beats_app, !length_app. unfold total_beats. simpl.
    pose proof (flush_beats_length sc (buffer_action st)). lia.
  - rewrite app_nil_r. lia.
Qed.

Lemma step_weight (st : pstate) (raw : string) :
  (weight (step st raw) ≤ weight st + 1)%nat.
Proof.
  destruct (is_scene_heading (line_of raw)) eqn:Hh.
  - rewrite step_heading by done. pose proof (finish_weight st).
    unfold weight at 1, all_scenes. simpl.
    rewrite total_beats_app, length_app. unfold total_beats at 2. simpl. lia.
  - unfold step. fold (line_of raw). rewrite Hh.
    destruct st as [scs [sc|] buf cc]; simpl; [|lia].
    pose proof (flush_beats_length sc buf) as Hf.
    pose proof (flush_buffer sc buf) as Hb.
    destruct (flush_action_as_beat sc buf) as [sc' buf'].
    simpl in Hf, Hb. subst buf'.
    destruct (Py.truthy (Py.strip (line_of raw))),
      (is_character_cue (line_of raw)), (Py.truthy_opt cc),
      (is_transition (line_of raw));
      unfold weight, all_scenes; simpl;
      rewrite ?total_beats_app, ?length_app; unfold total_beats; simpl;
      rewrite ?length_app; simpl; destruct buf; simpl in *; lia.
Qed.

Lemma foldl_weight (ls : list string) (st : pstate) :
  (weight (foldl step st ls) ≤ weight st + length ls)%nat.
Proof.
  revert st. induction ls as [|raw ls IH]; intros st; simpl; [lia|].
  pose proof (IH (step st raw)). pose proof (step_weight st raw). lia.
Qed.

End counting.

(** ** The matcher *)

Section matcher.

Lemma string_app_nil_l (s : string) : "" +:+ s = s.
Proof. done. Qed.

Lemma string_app_nil_r (s : string) : s +:+ "" = s.
Proof. induction s as [|c s IH]; [done|]. by rewrite string_app_cons, IH. Qed.

Lemma string_app_assoc (a b c : string) : (a +:+ b) +:+ c = a +:+ b +:+ c.
Proof. induction a as [|x a IH]; [done|]. by rewrite !string_app_cons, IH. Qed.

Lemma string_app_eq_nil (a b : string) : a +:+ b = "" → a = "" ∧ b = "".
Proof. destruct a; [by rewrite string_app_nil_l | by rewrite string_app_cons]. Qed.

Lemma blank_all_chars (s : string) : blank s = all_chars Py.isspace s.
Proof. induction s as [|c s IH]; simpl; by rewrite ?IH. Qed.

Lemma all_chars_app (p : ascii → bool) (s t : string) :
  all_chars p (s +:+ t) = all_chars p s && all_chars p t.
Proof.
  induction s as [|c s IH]; [done|].
  rewrite string_app_cons. simpl. by rewrite IH, andb_assoc.
Qed.

(** A greedy run succeeds exactly when some run of matching characters can
    be followed by the rest of the pattern. *)
Lemma star_exec_Some (p : ascii → bool) (k : nat → string → option nat)
    (i : nat) (s : string) :
  is_Some (Re.star_exec p k i s) ↔
  ∃ a b, s = a +:+ b ∧ all_chars p a = true
         ∧ is_Some (k (i + String.length a)%nat b).
Proof.
  revert i. induction s as [|c s IH]; intros i; simpl.
  - split.
    + intros Hk. exists "", "". by rewrite Nat.add_0_r.
    + intros ([|??] & b & Hs & _ & Hk); [|done].
      rewrite string_app_nil_l in Hs. subst b. by rewrite Nat.add_0_r in Hk.
  - assert (is_Some (k i (String c s)) →
            ∃ a b, String c s = a +:+ b ∧ all_chars p a = true
                   ∧ is_Some (k (i + String.length a)%nat b)) as Hhere.
    { intros Hk. exists "", (String c s). by rewrite Nat.add_0_r. }
    destruct (p c) eqn:Hc.
    + split.
      * destruct (Re.star_exec p k (S i) s) eqn:Hrun; [|done].
        intros _. destruct (proj1 (IH (S i))) as (a & b & -> & Ha & Hk).
        { by rewrite Hrun. }
        exists (String c a), b. simpl. rewrite Hc, Ha.
        by rewrite Nat.add_succ_r.
      * intros ([|x a] & b & Hs & Ha & Hk); simpl in *.
        -- rewrite string_app_nil_l in Hs. subst b. rewrite Nat.add_0_r in Hk.
           by destruct (Re.star_exec p k (S i) s).
        -- rewrite string_app_cons in Hs. injection Hs as <- ->.
           apply andb_true_iff in Ha as [_ Ha].
           destruct (proj2 (IH (S i))) as [j Hj].
           { exists a, b. by rewrite Nat.add_succ_r in Hk. }
           by rewrite Hj.
    + split; [done|].
      intros ([|x a] & b & Hs & Ha & Hk); simpl in *.
      * rewrite string_app_nil_l in Hs. subst b. by rewrite Nat.add_0_r in Hk.
      * rewrite string_app_cons in Hs. injection Hs as <- ->.
        by rewrite Hc in Ha.
Qed.

Lemma star_exec_total (p : ascii → bool) (i : nat) (s : string) :
  is_Some (Re.star_exec p (λ j _, Some j) i s).
Proof. apply star_exec_Some. exists "", s. by eexists. Qed.

(** Whitespace at the end of a string that [rstrip] leaves alone. *)
Lemma rstrip_fixed_tail (x t : string) :
  Py.rstrip (x +:+ t) = x +:+ t → blank t = true → t = "".
Proof.
  induction x as [|c x IH]; intros Hr Ht.
  - rewrite !string_app_nil_l in Hr. apply rstrip_blank in Ht. congruence.
  - rewrite string_app_cons in Hr. simpl in Hr.
    destruct (Py.rstrip (x +:+ t)) eqn:Hx.
    + destruct (Py.isspace c); [done|]. injection Hr as Hr.
      symmetry in Hr. by apply string_app_eq_nil in Hr as [_ ?].
    + injection Hr as Hr. by apply IH.
Qed.

End matcher.

(** ** Transitions *)

Section transitions.

Lemma exec_lit (c : ascii) (k : nat → string → option nat) (i : nat)
    (s : string) :
  is_Some (Re.exec (Re.lit false c) k i s) ↔
  ∃ rest, s = String c rest ∧ is_Some (k (S i) rest).
Proof.
  unfold Re.lit. simpl. destruct s as [|x s].
  - split; [by intros [] | by intros (? & ? & _)].
  - destruct (Ascii.eqb_spec x c) as [->|Hne].
    + split; [by exists s | by intros (? & [= <-] & ?)].
    + split; [by intros [] | intros (? & [= ? ?] & _); by subst].
Qed.

Lemma exec_word (w : string) (k : nat → string → option nat) (i : nat)
    (s : string) :
  is_Some (Re.exec (Re.word false w) k i s) ↔
  ∃ rest, s = w +:+ rest ∧ is_Some (k (i + String.length w)%nat rest).
Proof.
  revert k i s. induction w as [|c w IH]; intros k i s.
  - simpl. rewrite Nat.add_0_r. split; [by exists s|].
    intros (rest & Hs & Hk). rewrite string_app_nil_l in Hs. by subst.
  - destruct w as [|c' w].
    + change (Re.word false (String c "")) with (Re.lit false c).
      rewrite exec_lit. simpl. by rewrite Nat.add_1_r.
    + change (Re.word false (String c (String c' w)))
        with (Re.Seq (Re.lit false c) (Re.word false (String c' w))).
      cbn [Re.exec]. rewrite exec_lit. split.
      * intros (rest & -> & (rest' & -> & Hk)%IH).
        exists rest'. split; [done|].
        cbn [String.length] in *. by rewrite Nat.add_succ_r.
      * intros (rest & -> & Hk). eexists. split; [by rewrite string_app_cons|].
        apply IH. exists rest. split; [done|].
        cbn [String.length] in *. by rewrite Nat.add_succ_r in Hk.
Qed.

Lemma transition_match_shape (s : string) :
  is_Some (Re.re_match TRANSITION_RE s) ↔
  ∃ ws c w ws' e,
    s = ws +:+ String c w +:+ "TO:" +:+ ws' +:+ e
    ∧ blank ws = true ∧ upper_blank c = true ∧ all_chars upper_blank w = true
    ∧ blank ws' = true ∧ Re.at_eol e = true.
Proof.
  unfold Re.re_match, TRANSITION_RE, Re.Plus. cbn [Re.exec Nat.eqb].
  rewrite star_exec_Some. split.
  - intros (ws & b & -> & Hws & Hk). destruct b as [|c b]; [by destruct Hk|].
    destruct (upper_blank c) eqn:Hc; [|by destruct Hk].
    apply star_exec_Some in Hk as (w & b2 & -> & Hw & Hk).
    apply exec_word in Hk as (b3 & -> & Hk).
    apply star_exec_Some in Hk as (ws' & e & -> & Hws' & He).
    destruct (Re.at_eol e) eqn:Heol; [|by destruct He].
    exists ws, c, w, ws', e. rewrite !blank_all_chars.
    by rewrite string_app_cons.
  - intros (ws & c & w & ws' & e & -> & Hws & Hc & Hw & Hws' & He).
    exists ws, (String c w +:+ "TO:" +:+ ws' +:+ e).
    rewrite <- blank_all_chars. split_and!; [done..|].
    rewrite string_app_cons, Hc. apply star_exec_Some.
    exists w, ("TO:" +:+ ws' +:+ e). split_and!; [done..|].
    apply exec_word. exists (ws' +:+ e). split; [done|].
    apply star_exec_Some.
    exists ws', e. rewrite <- blank_all_chars. split_and!; [done..|].
    rewrite He. by eexists.
Qed.

End transitions.

Section transition_lines.

Lemma at_eol_blank (e : string) : Re.at_eol e = true → blank e = true.
Proof.
  destruct e as [|x [|y e]]; simpl; [done| |done].
  intros Hx%N.eqb_eq. unfold Py.isspace, Py.in_range. by rewrite Hx.
Qed.

Lemma strip_cases (line : string) :
  Py.strip line = "" ∨ trimmed (Py.strip line).
Proof.
  destruct (Py.strip line) eqn:Hs; [by left|]. right.
  rewrite <- Hs. split; [apply strip_idemp | by rewrite Hs].
Qed.

Lemma transition_strip_shape (line : string) :
  is_transition line = true ↔
  ∃ w, Py.strip line = w +:+ "TO:" ∧ w ≠ ""
       ∧ all_chars upper_blank w = true.
Proof.
  unfold is_transition. rewrite bool_decide_eq_true, transition_match_shape.
  split.
  - intros (ws & c & w & ws' & e & Hs & Hws & Hc & Hw & Hws' & He).
    destruct (strip_cases line) as [Hnil|Htrim].
    { rewrite Hnil in Hs. symmetry in Hs.
      apply string_app_eq_nil in Hs as [_ Hs]. by rewrite string_app_cons in Hs. }
    destruct ws as [|x ws].
    2:{ destruct (trimmed_head _ Htrim) as (c0 & r & Hr & Hc0).
        rewrite Hr, string_app_cons in Hs. injection Hs as -> _.
        simpl in Hws. by rewrite Hc0 in Hws. }
    rewrite string_app_nil_l in Hs.
    assert (ws' +:+ e = "") as Htail.
    { apply (rstrip_fixed_tail (String c w +:+ "TO:")).
      - rewrite string_app_assoc, <- Hs. by apply trimmed_rstrip.
      - by rewrite blank_app, Hws', (at_eol_blank e He). }
    exists (String c w). rewrite Hs, Htail. split_and!; [done | done |].
    simpl. by rewrite Hc, Hw.
  - intros (w & Hs & Hne & Hw). destruct w as [|c w]; [done|].
    simpl in Hw. apply andb_true_iff in Hw as [Hc Hw].
    exists "", c, w, "", "". by rewrite Hs.
Qed.

End transition_lines.

(** ** Locations *)

Section locations.

Lemma all_chars_lstrip (p : ascii → bool) (s : string) :
  all_chars p s = true → all_chars p (Py.lstrip s) = true.
Proof.
  induction s as [|c s IH]; simpl; [done|].
  intros [Hc Hs]%andb_true_iff. destruct (Py.isspace c); [by apply IH|].
  simpl. by rewrite Hc, Hs.
Qed.

Lemma all_chars_rstrip (p : ascii → bool) (s : string) :
  all_chars p s = true → all_chars p (Py.rstrip s) = true.
Proof.
  induction s as [|c s IH]; simpl; [done|].
  intros [Hc Hs]%andb_true_iff. specialize (IH Hs).
  destruct (Py.rstrip s); [destruct (Py.isspace c)|]; simpl in *;
    by rewrite ?Hc, ?IH.
Qed.

Lemma all_chars_strip (p : ascii → bool) (s : string) :
  all_chars p s = true → all_chars p (Py.strip s) = true.
Proof. intros Hs. by apply all_chars_rstrip, all_chars_lstrip. Qed.

(** The hyphen pattern matches wherever a hyphen stands. *)
Lemma hyphen_matches (i : nat) (s : string) :
  is_Some (Re.exec HYPHEN_RE (λ j _, Some j) i (String "-" s)).
Proof.
  unfold HYPHEN_RE. cbn [Re.exec]. apply star_exec_Some.
  exists "", (String "-" s). split_and!; [done..|].
  apply exec_lit. exists s. split; [done|]. apply star_exec_total.
Qed.

Lemma split_head_no_hyphen (i : nat) (s : string) :
  all_chars (λ c, negb (Ascii.eqb c "-")) (Re.split_head_from HYPHEN_RE i s)
  = true.
Proof.
  revert i. induction s as [|c s IH]; intros i.
  - cbn [Re.split_head_from]. by destruct (Re.exec HYPHEN_RE _ i "").
  - cbn [Re.split_head_from].
    destruct (Re.exec HYPHEN_RE _ i (String c s)) eqn:He; [done|].
    simpl. rewrite IH, andb_true_r.
    destruct (Ascii.eqb_spec c "-") as [->|]; [|done].
    destruct (hyphen_matches i s) as [j Hj]. congruence.
Qed.

End locations.

(** ** Reference columns *)

Section reference.

Lemma trimmed_strip_id (c : string) : trimmed c → Py.strip c = c.
Proof. by intros [? _]. Qed.

Lemma default_cols_clean :
  Forall (λ c, (Py.strip c = c ∧ c ≠ "")
               ∧ Py.startswith (Py.lower c) "unnamed" = false)
    default_cols.
Proof. apply (bool_decide_unpack _). by vm_compute. Qed.

Lemma reference_clean (labels : list string) :
  Forall (λ c, trimmed c ∧ Py.startswith (Py.lower c) "unnamed" = false)
    (find_reference_columns_from_df labels).
Proof.
  unfold find_reference_columns_from_df.
  destruct (List.filter _ _) as [|c cols] eqn:Hf; [apply default_cols_clean|].
  rewrite <- Hf. apply Forall_forall.
  intros x [Hx [Ht Hu]%andb_true_iff]%list_elem_of_In%filter_In.
  apply list_elem_of_In, list_elem_of_fmap in Hx as (l & -> & _).
  split; [by apply trimmed_strip | by apply negb_true_iff].
Qed.

Lemma filter_all {A : Type} (f : A → bool) (l : list A) :
  Forall (λ x, f x = true) l → List.filter f l = l.
Proof. induction 1 as [|x l Hx _ IH]; simpl; [done|]. by rewrite Hx, IH. Qed.

Lemma map_fixed {A : Type} (f : A → A) (l : list A) :
  Forall (λ x, f x = x) l → map f l = l.
Proof. induction 1 as [|x l Hx _ IH]; simpl; [done|]. by rewrite Hx, IH. Qed.

End reference.

(** ** Scene headings *)

Section headings.








Lemma char_list_sorted (sc : scene) :
  ∃ l, char_list sc = Py.join ", " l
       ∧ StronglySorted String.le l ∧ NoDup l
       ∧ ∀ ch, ch ∈ l ↔ ch ∈ characters sc.
Proof.
  exists (merge_sort String.le (elements (characters sc))). split_and!.
  - unfold char_list. case_bool_decide as He; [|done].
    by rewrite He, elements_empty.
  - apply StronglySorted_merge_sort; apply _.
  - rewrite merge_sort_Permutation. apply NoDup_elements.
  - intros ch. by rewrite merge_sort_Permutation, elem_of_elements.
Qed.

End headings.

(** ** Further properties: lines and their classes *)

(** X1. Whitespace around a line never changes its class: a line and its
    trimmed form are headings, transitions and cues alike. *)
Theorem classes_ignore_margins (line : string) :
  is_scene_heading (Py.strip line) = is_scene_heading line
  ∧ is_transition (Py.strip line) = is_transition line
  ∧ is_character_cue (Py.strip line) = is_character_cue line.
Proof.
  split; [apply heading_idemp|]. split; [apply transition_idemp | apply cue_idemp].
Qed.



(** X3. A line is a transition exactly when its trimmed form is a non-empty
    run of capital letters, spaces and tabs followed by [TO:]. *)
Theorem transition_shape (line : string) :
  is_transition line = true ↔
  ∃ w, Py.strip line = w +:+ "TO:" ∧ w ≠ ""
       ∧ all_chars upper_blank w = true.
Proof. apply transition_strip_shape. Qed.

(** X4. Splitting undoes joining with line feeds: a document made of lines
    without line boundaries, the last of which is not empty, splits into
    these lines. *)
Theorem splitlines_of_document (ls : list string) :
  Forall (λ l, one_line l = true) ls → last ls ≠ Some "" →
  Py.splitlines (document ls) = ls.
Proof. apply splitlines_document. Qed.

Lemma splitlines_of_document_witness :
  Py.splitlines (document ["INT. ROOM"; ""; "He runs."])
  = ["INT. ROOM"; ""; "He runs."].
Proof.
  apply (splitlines_of_document ["INT. ROOM"; ""; "He runs."]).
  - repeat constructor.
  - discriminate.
Defined.

(** X5. No line of a document contains a line boundary, so stripping the
    newline from a line, as the loop of the parser does, changes nothing. *)
Theorem lines_have_no_boundary (text : string) :
  Forall (λ raw, one_line raw = true ∧ line_of raw = raw)
    (Py.splitlines text).
Proof.
  eapply Forall_impl; [apply (splitlines_from_one_line false)|].
  intros raw Hraw. split; [done|].
  by apply rstrip_char_id, one_line_no_newline.
Qed.

(** ** Further properties: the parser *)

(** X6. What stands before the first scene heading is dropped: lines that
    are no headings, put in front of a document, do not change its scenes. *)
Theorem text_before_first_heading_is_dropped (pre ls : list string) :
  Forall (λ raw, is_scene_heading (line_of raw) = false) pre →
  parse_lines (pre ++ ls) = parse_lines ls.
Proof.
  intros Hpre. unfold parse_lines.
  by rewrite foldl_step_app, foldl_before_scene.
Qed.

Lemma text_before_first_heading_is_dropped_witness :
  parse_lines (["FADE IN:"; ""; "Title"] ++ ["INT. ROOM"; "He runs."])
  = parse_lines ["INT. ROOM"; "He runs."].
Proof.
  apply (text_before_first_heading_is_dropped ["FADE IN:"; ""; "Title"]).
  repeat constructor.
Defined.

(** X7. Scenes are parsed one by one: at a heading line the document falls
    into two parts, and its scenes are those of the first part followed by
    those of the second, numbered on. *)
Theorem scenes_parse_independently (ls1 ls2 : list string) (h : string) :
  is_scene_heading (line_of h) = true →
  parse_lines (ls1 ++ h :: ls2)
  = parse_lines ls1
    ++ map (renumber (length (parse_lines ls1))) (parse_lines (h :: ls2)).
Proof. apply parse_lines_heading. Qed.

Lemma scenes_parse_independently_witness :
  parse_lines (["INT. A"; "JOHN"; "Hi."] ++ "EXT. B" :: ["He runs."])
  = parse_lines ["INT. A"; "JOHN"; "Hi."]
    ++ map (renumber (length (parse_lines ["INT. A"; "JOHN"; "Hi."])))
         (parse_lines ("EXT. B" :: ["He runs."])).
Proof.
  apply (scenes_parse_independently ["INT. A"; "JOHN"; "Hi."] ["He runs."] "EXT. B").
  reflexivity.
Defined.

(** X8. The heading of every scene is a trimmed line that is itself a
    scene heading. *)
Theorem scene_headings_are_headings (text : string) :
  Forall (λ sc, is_scene_heading (scene_heading sc) = true
                ∧ Py.strip (scene_heading sc) = scene_heading sc)
    (parse_fountain_text text).
Proof.
  apply (Forall_map scene_heading
           (λ h, is_scene_heading h = true ∧ Py.strip h = h)).
  rewrite signature_snd, parse_signatures, number_from_snd.
  apply Forall_map, Forall_forall.
  intros raw [_ Hraw]%list_elem_of_In%filter_In. simpl.
  by rewrite heading_idemp, strip_idemp.
Qed.

(** X9. The characters of every scene are trimmed lines that are character
    cues. *)
Theorem characters_are_cues (text : string) :
  Forall (λ sc, set_Forall (λ ch, is_character_cue ch = true ∧ trimmed ch)
                  (characters sc))
    (parse_fountain_text text).
Proof.
  eapply Forall_impl; [apply (parse_lines_well_formed (Py.splitlines text))|].
  by intros sc [Hch _].
Qed.

(** X10. Every beat of a scene is well formed: an action text is trimmed
    and not empty; a dialogue text is a character of that scene, a colon and
    a space, and a trimmed, non-empty line. *)
Theorem beats_are_well_formed (text : string) :
  Forall (λ sc, Forall (well_formed_beat (characters sc)) (beats sc))
    (parse_fountain_text text).
Proof.
  eapply Forall_impl; [apply (parse_lines_well_formed (Py.splitlines text))|].
  by intros sc [_ Hb].
Qed.

(** X11. The text of every beat has no whitespace at its ends. *)
Theorem beat_texts_are_trimmed (text : string) :
  Forall (λ sc, Forall (λ b : beat, Py.strip b.2 = b.2 ∧ b.2 ≠ "") (beats sc))
    (parse_fountain_text text).
Proof.
  eapply Forall_impl; [apply (parse_lines_well_formed (Py.splitlines text))|].
  intros sc [Hch Hb]. eapply Forall_impl; [apply Hb|].
  intros [k t]. unfold well_formed_beat. simpl. destruct k; [done|].
  intros (ch & txt & -> & Hin & Htxt). apply trimmed_app; [|done].
  by apply Hch.
Qed.

(** X12. Beats and scenes together never outnumber the lines of the
    document: every scene takes its heading line and every beat at least
    one further line. *)
Theorem beats_bounded_by_lines (text : string) :
  (total_beats (parse_fountain_text text) + length (parse_fountain_text text)
   ≤ length (Py.splitlines text))%nat.
Proof.
  unfold parse_fountain_text.
  pose proof (finish_weight (foldl step initial (Py.splitlines text))).
  pose proof (foldl_weight (Py.splitlines text) initial).
  change (weight initial) with 0%nat in *. lia.
Qed.

(** ** Further properties: the column resolver *)

(** X13. The column of a logical field depends on the target schema and on
    the aliases of that field only: it is the result of the scan of the
    schema for these aliases, or the name of the field when the scan finds
    nothing. The names appended for other fields never capture it. *)
Theorem resolution_is_independent (columns : list string) (l : string)
    (aliases : list string) :
  (l, aliases) ∈ possible_map →
  resolved columns l = default l (scan_aliases columns aliases None).
Proof. apply resolved_exact. Qed.

Lemma resolution_is_independent_witness :
  resolved ["Cast"; "Heading"] "Characters"
  = default "Characters"
      (scan_aliases ["Cast"; "Heading"] ["Characters"; "Cast"] None).
Proof.
  apply (resolution_is_independent ["Cast"; "Heading"] "Characters"
           ["Characters"; "Cast"]).
  repeat constructor.
Defined.

(** X14. A field none of whose aliases equals a schema column, after
    trimming and lower-casing, is resolved to its own name, which is one of
    the output columns. *)
Theorem unmatched_field_keeps_its_name (scs : list scene)
    (columns : list string) (l : string) (aliases : list string) :
  (l, aliases) ∈ possible_map →
  Forall (λ c, Forall (λ a, norm c ≠ norm a) aliases) columns →
  resolved columns l = l
  ∧ l ∈ df_columns (build_shotlist_from_scenes scs columns).
Proof.
  intros Hin Hno.
  assert (resolved columns l = l) as Hl.
  { rewrite (resolved_exact columns l aliases Hin).
    assert (scan_aliases columns aliases None = None) as ->; [|done].
    apply scan_aliases_None, Forall_forall. intros a Ha.
    unfold scan_columns.
    destruct (List.find _ columns) as [c|] eqn:Hc; [|done].
    apply find_some in Hc as [Hc%list_elem_of_In Heq%String.eqb_eq].
    rewrite Forall_forall in Hno. specialize (Hno c Hc).
    rewrite Forall_forall in Hno. by destruct (Hno a Ha). }
  split; [done|]. rewrite build_columns, <- Hl at 1.
  apply resolved_in_columns. apply list_elem_of_fmap. by exists (l, aliases).
Qed.

Lemma unmatched_field_keeps_its_name_witness :
  resolved ["Scene"; "Shot"] "Lens" = "Lens"
  ∧ "Lens" ∈ df_columns (build_shotlist_from_scenes [] ["Scene"; "Shot"]).
Proof.
  apply (unmatched_field_keeps_its_name [] ["Scene"; "Shot"] "Lens" ["Lens"]).
  - repeat constructor.
  - repeat constructor; discriminate.
Defined.

(** X15. A field one of whose aliases equals a schema column, after
    trimming and lower-casing, is resolved to a column of the schema that
    equals one of its aliases in that way. *)
Theorem matched_field_takes_schema_column (columns : list string)
    (l : string) (aliases : list string) (c a : string) :
  (l, aliases) ∈ possible_map →
  c ∈ columns → a ∈ aliases → norm c = norm a →
  resolved columns l ∈ columns
  ∧ ∃ a', a' ∈ aliases ∧ norm (resolved columns l) = norm a'.
Proof.
  intros Hin Hc Ha Heq. rewrite (resolved_exact columns l aliases Hin).
  destruct (scan_aliases columns aliases None) as [m|] eqn:Hm; simpl.
  - by apply scan_aliases_elem in Hm as [?|?].
  - apply scan_aliases_None in Hm. rewrite Forall_forall in Hm.
    specialize (Hm a Ha). unfold scan_columns in Hm.
    apply list_elem_of_In in Hc.
    pose proof (find_none _ _ Hm c Hc) as Hf. simpl in Hf.
    apply String.eqb_neq in Hf. by destruct Hf.
Qed.

Lemma matched_field_takes_schema_column_witness :
  resolved ["Cast"; " SLUGLINE "] "Scene Heading" ∈ ["Cast"; " SLUGLINE "]
  ∧ ∃ a', a' ∈ ["Scene Heading"; "Heading"; "Slugline"]
          ∧ norm (resolved ["Cast"; " SLUGLINE "] "Scene Heading") = norm a'.
Proof.
  apply (matched_field_takes_schema_column ["Cast"; " SLUGLINE "]
           "Scene Heading" ["Scene Heading"; "Heading"; "Slugline"]
           " SLUGLINE " "Slugline").
  - repeat constructor.
  - repeat constructor.
  - repeat constructor.
  - reflexivity.
Defined.

(** X16. The output columns are the columns of the target schema, each
    once and in the order of its first occurrence, followed by names of
    logical fields that are not in the schema, in catalog order. *)
Theorem output_columns_shape (scs : list scene) (columns : list string) :
  ∃ ext, df_columns (build_shotlist_from_scenes scs columns)
         = uniq_from ∅ columns ++ ext
         ∧ sublist ext logical_fields
         ∧ Forall (λ x, x ∉ columns) ext.
Proof.
  destruct (build_columns_shape scs columns) as (ext & ? & _ & ? & ? & _).
  by exists ext.
Qed.

(** X17. No output column occurs twice, and every column of the target
    schema is an output column. *)
Theorem output_columns_distinct (scs : list scene) (columns : list string) :
  NoDup (df_columns (build_shotlist_from_scenes scs columns))
  ∧ Forall (λ c, c ∈ df_columns (build_shotlist_from_scenes scs columns))
      columns.
Proof.
  split.
  - rewrite build_columns. apply uniq_from_NoDup.
  - destruct (build_columns_shape scs columns) as (ext & -> & _).
    apply Forall_forall. intros c Hc. apply elem_of_app. left.
    apply uniq_from_elem. split; [done | set_solver].
Qed.

(** X18. Every logical field is resolved to one of the output columns. *)
Theorem resolved_is_output_column (scs : list scene) (columns : list string) :
  Forall (λ l, resolved columns l
               ∈ df_columns (build_shotlist_from_scenes scs columns))
    logical_fields.
Proof.
  rewrite build_columns. apply Forall_forall. intros l Hl.
  by apply resolved_in_columns.
Qed.

(** X19. The output columns are a fixed point: taken as the target schema
    of another run, they are its output columns too, and every logical
    field is resolved as before. *)
Theorem resolution_fixed_point (scs scs' : list scene) (columns : list string) :
  df_columns
    (build_shotlist_from_scenes scs'
       (df_columns (build_shotlist_from_scenes scs columns)))
  = df_columns (build_shotlist_from_scenes scs columns)
  ∧ Forall (λ l, resolved (df_columns (build_shotlist_from_scenes scs columns)) l
                 = resolved columns l)
      logical_fields.
Proof.
  destruct (build_columns_shape scs columns)
    as (ext & Hout & Hext & Hsub & Hni & Hnd).
  assert (Forall (λ l, resolved (df_columns (build_shotlist_from_scenes scs columns)) l
                       = resolved columns l) logical_fields) as Hsame.
  { rewrite Hout. apply Forall_forall. intros l Hl. by apply resolved_output. }
  split; [|done].
  set (out := df_columns (build_shotlist_from_scenes scs columns)) in *.
  destruct (build_columns_shape scs' out)
    as (ext' & -> & Hext' & Hsub' & Hni' & _).
  assert (NoDup out) as Hnd_out.
  { unfold out. rewrite build_columns. apply uniq_from_NoDup. }
  rewrite (uniq_from_id ∅ out Hnd_out).
  2:{ apply Forall_forall. intros y _. apply not_elem_of_empty. }
  destruct ext' as [|x ext']; [by rewrite app_nil_r|]. exfalso.
  assert (x ∈ logical_fields) as Hx.
  { eapply elem_of_sublist; [|done]. by left. }
  apply Forall_inv in Hni'. apply Hni'.
  pose proof (appended_self out (x :: ext') Hext') as Hself.
  apply Forall_inv in Hself.
  rewrite Forall_forall in Hsame. rewrite (Hsame x Hx) in Hself.
  rewrite <- Hself. unfold out. rewrite build_columns.
  by apply resolved_in_columns.
Qed.

(** ** Further properties: the rows *)

(** X20. Every row has exactly the output columns as its keys. *)
Theorem rows_have_output_columns (scs : list scene) (columns : list string) :
  Forall (λ row : gmap string cell,
            dom row
            = list_to_set (df_columns (build_shotlist_from_scenes scs columns)))
    (df_rows (build_shotlist_from_scenes scs columns)).
Proof.
  rewrite build_columns. apply build_rows_Forall. intros sc n b.
  apply make_row_dom.
Qed.

(** X21. In every row the camera fields hold their defaults, [MS],
    [Eye-level], [Static] and [35mm], and the notes are empty. *)
Theorem rows_hold_camera_defaults (scs : list scene) (columns : list string) :
  Forall (λ row : gmap string cell,
            row !! resolved columns "Shot Type" = Some (CStr "MS")
            ∧ row !! resolved columns "Angle" = Some (CStr "Eye-level")
            ∧ row !! resolved columns "Movement" = Some (CStr "Static")
            ∧ row !! resolved columns "Lens" = Some (CStr "35mm")
            ∧ row !! resolved columns "Notes" = Some (CStr ""))
    (df_rows (build_shotlist_from_scenes scs columns)).
Proof.
  apply build_rows_Forall. intros sc n b.
  pose proof (make_row_cells columns sc n b) as H. cbv zeta in H.
  destruct H as (_ & _ & _ & _ & ? & ? & ? & ? & _ & _ & ?). done.
Qed.

(** X22. The rows of a scene all carry its number, its heading, the
    location derived from the heading and its sorted characters. *)
Theorem rows_carry_their_scene (scs : list scene) (columns : list string) :
  map (λ row : gmap string cell,
         (row !! resolved columns "Scene #",
          row !! resolved columns "Scene Heading",
          row !! resolved columns "Location",
          row !! resolved columns "Characters"))
    (df_rows (build_shotlist_from_scenes scs columns))
  = flat_map
      (λ sc, map (λ _, (Some (CInt (scene_number sc)),
                        Some (CStr (scene_heading sc)),
                        Some (CStr (location (scene_heading sc))),
                        Some (CStr (char_list sc))))
               (beats sc))
      scs.
Proof.
  apply (build_rows_map _ (λ sc _, _)). intros sc n b.
  pose proof (make_row_cells columns sc n b) as H. cbv zeta in H.
  destruct H as (-> & -> & _ & _ & _ & _ & _ & _ & -> & -> & _). done.
Qed.

(** X23. Read down the rows, the column of [Beat/Action] lists the beats
    of the scenes in document order, each as its kind in brackets and its
    text. *)
Theorem rows_list_the_beats (scs : list scene) (columns : list string) :
  map (λ row : gmap string cell, row !! resolved columns "Beat/Action")
    (df_rows (build_shotlist_from_scenes scs columns))
  = flat_map (λ sc, map (λ b, Some (beat_cell b)) (beats sc)) scs.
Proof.
  apply (build_rows_map _ (λ _ b, Some (beat_cell b))). intros sc n b.
  pose proof (make_row_cells columns sc n b) as H. cbv zeta in H.
  by destruct H as (_ & _ & -> & _).
Qed.

(** X24. The cell of [Duration (s)], and the cell of every output column
    that no assigned field is resolved to, hold the empty string. *)
Theorem other_columns_stay_empty (scs : list scene) (columns : list string) :
  Forall (λ row : gmap string cell,
            row !! resolved columns "Duration (s)" = Some (CStr "")
            ∧ Forall (λ c, row !! c = Some (CStr ""))
                (filter (λ c, c ∉ map (resolved columns) assigned_fields)
                   (df_columns (build_shotlist_from_scenes scs columns))))
    (df_rows (build_shotlist_from_scenes scs columns)).
Proof.
  rewrite build_columns. apply build_rows_Forall. intros sc n b.
  assert (∀ c, c ∈ uniq_from ∅ (resolve_columns columns).2 →
               c ∉ map (resolved columns) assigned_fields →
               make_row (uniq_from ∅ (resolve_columns columns).2)
                 (resolve_columns columns).1 sc n b !! c = Some (CStr ""))
    as Hfree.
  { intros c Hc Hno. apply make_row_untouched; [done|].
    apply Forall_forall. intros l Hl ->. apply Hno.
    apply (list_elem_of_fmap_2 (resolved columns)) in Hl. done. }
  split.
  - apply Hfree.
    + apply resolved_in_columns, logical_field_elem. reflexivity.
    + intros (l & Heq & Hl)%list_elem_of_fmap.
      pose proof assigned_fields_logical as Ha. rewrite Forall_forall in Ha.
      destruct (Ha l Hl) as [Hlf Hne].
      apply (resolved_inj columns) in Heq; [|by apply logical_field_elem|done].
      by subst l.
  - apply Forall_forall. intros c [Hno Hc]%list_elem_of_filter.
    by apply Hfree.
Qed.

(** ** Further properties: locations and reference columns *)

(** X25. A location never contains a hyphen and has no whitespace at its
    ends. *)
Theorem location_is_clean (heading : string) :
  all_chars (λ c, negb (Ascii.eqb c "-")) (location heading) = true
  ∧ Py.strip (location heading) = location heading.
Proof.
  unfold location. split; [|apply strip_idemp].
  apply all_chars_strip, split_head_no_hyphen.
Qed.

(** X26. The reference columns are never empty; each of them is trimmed,
    not empty and does not begin with [unnamed] in any letter case. *)
Theorem reference_columns_are_clean (labels : list string) :
  find_reference_columns_from_df labels ≠ []
  ∧ Forall (λ c, trimmed c ∧ Py.startswith (Py.lower c) "unnamed" = false)
      (find_reference_columns_from_df labels).
Proof.
  split; [|apply reference_clean].
  unfold find_reference_columns_from_df. by destruct (List.filter _ _).
Qed.

(** X27. Cleaning reference columns twice is cleaning them once. *)
Theorem reference_columns_idempotent (labels : list string) :
  find_reference_columns_from_df (find_reference_columns_from_df labels)
  = find_reference_columns_from_df labels.
Proof.
  pose proof (reference_columns_are_clean labels) as [Hne Hclean].
  set (cols := find_reference_columns_from_df labels) in *.
  unfold find_reference_columns_from_df at 1.
  rewrite map_fixed.
  2:{ eapply Forall_impl; [apply Hclean|]. by intros c [[? _] _]. }
  rewrite filter_all.
  2:{ eapply Forall_impl; [apply Hclean|]. intros c [[_ Hc] ->].
      by destruct c. }
  by destruct cols.
Qed.


(** X29. The cell of [Characters] joins, with a comma and a space, the
    characters of the scene, each once and in ascending order. *)
Theorem characters_cell_is_sorted (sc : scene) :
  ∃ l, char_list sc = Py.join ", " l
       ∧ StronglySorted String.le l ∧ NoDup l
       ∧ ∀ ch, ch ∈ l ↔ ch ∈ characters sc.
Proof. apply char_list_sorted. Qed.
